(** * XTable: a CRUD table in SRAM mirrored into a circular EEPROM buffer

    Shallow embedding of [src/XTable.h] (class template [XTable<X>]) and the
    properties of its working-set table and of its wear-levelling store.

    Target conventions (AVR, the only target that defines [E2END]):
    [int] is 16 bits two's complement, [unsigned int] and [size_t] are 16
    bits, [uint8_t] is 8 bits, every type has alignment 1. *)

From Stdlib Require Import ZArith Lia Bool.
From Stdlib.Strings Require Byte.
From stdpp Require Import base tactics option list.

Local Open Scope Z_scope.

(** ** Machine integers *)

(** [unsigned int] / [size_t]: arithmetic modulo 2^16. *)
Definition wrap_uint (z : Z) : Z := z mod 65536.

(** [int]: the 16-bit two's complement value congruent to [z]. *)
Definition wrap_int (z : Z) : Z := (z + 32768) mod 65536 - 32768.

(** [uint8_t]: arithmetic modulo 2^8. *)
Definition wrap_u8 (z : Z) : Z := z mod 256.

(** [const unsigned char BMK = 0x42], [EMK = 0x45]. *)
Definition BMK : Z := 0x42.
Definition EMK : Z := 0x45.

(** What the template asks of its parameter [X]: a copyable type of fixed
    size, here with its object representation of [sizeof(X)] bytes; and
    what the target makes of a [bool] object whose byte was copied from the
    store ([flag_of_byte]). A [bool] is written as 0 or 1; what a [bool]
    object holding another byte behaves as is not fixed by the language and
    differs between compilers, so [flag_of_byte] is a parameter, read once,
    where [LoadStorage] copies the flag into a node. *)
Class Payload (X : Type) : Type := {
  sizeof_X : nat;
  encode : X → list Z;
  decode : list Z → X;
  flag_of_byte : Z → bool
}.

(** The representation is faithful: [sizeof(X)] bytes that read back as the
    value they were written from, and the two bytes a [bool] is written as
    read back as that [bool]. *)
Class PayloadLaws (X : Type) `{Payload X} : Prop := {
  encode_length : ∀ x : X, length (encode x) = sizeof_X;
  encode_bytes : ∀ x : X, Forall (fun b => 0 <= b < 256) (encode x);
  decode_encode : ∀ x : X, decode (encode x) = x;
  flag_of_byte_0 : flag_of_byte 0 = false;
  flag_of_byte_1 : flag_of_byte 1 = true
}.

Section XTable.

Context {X : Type} `{Payload X}.

(** Last EEPROM address of the device (avr-libc macro, not in the sources). *)
Variable E2END : Z.

(** [struct XItem { Y item; bool enabled; }]. The SRAM node [Item] has the
    same two fields plus the [next] link; the links are the list structure
    of [chain] below, a node pointer is an index into it. *)
Record XItem := { item : X; enabled : bool }.

(** [sizeof(XItem<X>)]: the payload followed by the one-byte flag. *)
Definition sizeof_XItem : Z := Z.of_nat sizeof_X + 1.

(** ** The byte store [XEEPROM] *)

(** Modelled from the spec: the byte-store driver [XEEPROM/XEEPROM.h] is not
    among the sources. Section 6 gives its contract: [readByte(addr)],
    [writeByte(addr, byte)], [readRecord(addr)], [writeRecord(addr, rec)] and
    [fill(addr, length, value)], all synchronous. A cell holds 8 bits. *)
Definition eeprom_read (m : Z → Z) (a : Z) : Z := wrap_u8 (m a).

Definition eeprom_write (m : Z → Z) (a v : Z) : Z → Z :=
  fun a' => if a' =? a then wrap_u8 v else m a'.

Fixpoint eeprom_write_bytes (m : Z → Z) (a : Z) (bs : list Z) : Z → Z :=
  match bs with
  | [] => m
  | b :: bs' => eeprom_write_bytes (eeprom_write m a b) (a + 1) bs'
  end.

Definition eeprom_read_bytes (m : Z → Z) (a : Z) (n : nat) : list Z :=
  (fun j => eeprom_read m (a + Z.of_nat j)) <$> seq 0 n.

Definition eeprom_Fill (m : Z → Z) (a len v : Z) : Z → Z :=
  eeprom_write_bytes m a (replicate (Z.to_nat len) v).

(** Object representation of a record: payload bytes, then the flag. *)
Definition XItem_bytes (x : XItem) : list Z :=
  encode (item x) ++ [Z.b2z (enabled x)].

Definition eeprom_Write (m : Z → Z) (a : Z) (x : XItem) : Z → Z :=
  eeprom_write_bytes m a (XItem_bytes x).

(** The record read back: the payload from its bytes, and the flag as the
    [bool] object that now holds the stored flag byte, whatever that byte
    is ([LoadStorage] copies it into the node without looking at it). *)
Definition eeprom_Read (m : Z → Z) (a : Z) : XItem :=
  {| item := decode (eeprom_read_bytes m a sizeof_X);
     enabled := flag_of_byte (eeprom_read m (a + Z.of_nat sizeof_X)) |}.

(** ** The object state *)

Record XTable := {
  chain : list XItem;            (* the nodes from [first_record] on *)
  current_record : option nat;   (* [None] is [NULL] *)
  counter : Z;                   (* unsigned int *)
  buffer_max_items : Z;          (* unsigned int *)
  xitem : option XItem;          (* [None]: not (yet) allocated *)
  eeprom : Z → Z;
  eeprom_header_begin : Z;
  eeprom_parameter_begin : Z;
  eeprom_max_items : Z;
  top_status_ptr : Z;
  top_parameter_ptr : Z
}.

Definition set_chain (l : list XItem) (t : XTable) : XTable :=
  {| chain := l; current_record := current_record t; counter := counter t;
     buffer_max_items := buffer_max_items t; xitem := xitem t;
     eeprom := eeprom t; eeprom_header_begin := eeprom_header_begin t;
     eeprom_parameter_begin := eeprom_parameter_begin t;
     eeprom_max_items := eeprom_max_items t;
     top_status_ptr := top_status_ptr t;
     top_parameter_ptr := top_parameter_ptr t |}.

Definition set_current_record (c : option nat) (t : XTable) : XTable :=
  {| chain := chain t; current_record := c; counter := counter t;
     buffer_max_items := buffer_max_items t; xitem := xitem t;
     eeprom := eeprom t; eeprom_header_begin := eeprom_header_begin t;
     eeprom_parameter_begin := eeprom_parameter_begin t;
     eeprom_max_items := eeprom_max_items t;
     top_status_ptr := top_status_ptr t;
     top_parameter_ptr := top_parameter_ptr t |}.

Definition set_counter (c : Z) (t : XTable) : XTable :=
  {| chain := chain t; current_record := current_record t; counter := c;
     buffer_max_items := buffer_max_items t; xitem := xitem t;
     eeprom := eeprom t; eeprom_header_begin := eeprom_header_begin t;
     eeprom_parameter_begin := eeprom_parameter_begin t;
     eeprom_max_items := eeprom_max_items t;
     top_status_ptr := top_status_ptr t;
     top_parameter_ptr := top_parameter_ptr t |}.

Definition set_buffer_max_items (n : Z) (t : XTable) : XTable :=
  {| chain := chain t; current_record := current_record t;
     counter := counter t; buffer_max_items := n; xitem := xitem t;
     eeprom := eeprom t; eeprom_header_begin := eeprom_header_begin t;
     eeprom_parameter_begin := eeprom_parameter_begin t;
     eeprom_max_items := eeprom_max_items t;
     top_status_ptr := top_status_ptr t;
     top_parameter_ptr := top_parameter_ptr t |}.

Definition set_xitem (x : option XItem) (t : XTable) : XTable :=
  {| chain := chain t; current_record := current_record t;
     counter := counter t; buffer_max_items := buffer_max_items t;
     xitem := x;
     eeprom := eeprom t; eeprom_header_begin := eeprom_header_begin t;
     eeprom_parameter_begin := eeprom_parameter_begin t;
     eeprom_max_items := eeprom_max_items t;
     top_status_ptr := top_status_ptr t;
     top_parameter_ptr := top_parameter_ptr t |}.

Definition set_eeprom (m : Z → Z) (t : XTable) : XTable :=
  {| chain := chain t; current_record := current_record t;
     counter := counter t; buffer_max_items := buffer_max_items t;
     xitem := xitem t;
     eeprom := m; eeprom_header_begin := eeprom_header_begin t;
     eeprom_parameter_begin := eeprom_parameter_begin t;
     eeprom_max_items := eeprom_max_items t;
     top_status_ptr := top_status_ptr t;
     top_parameter_ptr := top_parameter_ptr t |}.

Definition set_eeprom_header_begin (a : Z) (t : XTable) : XTable :=
  {| chain := chain t; current_record := current_record t;
     counter := counter t; buffer_max_items := buffer_max_items t;
     xitem := xitem t;
     eeprom := eeprom t; eeprom_header_begin := a;
     eeprom_parameter_begin := eeprom_parameter_begin t;
     eeprom_max_items := eeprom_max_items t;
     top_status_ptr := top_status_ptr t;
     top_parameter_ptr := top_parameter_ptr t |}.

Definition set_eeprom_parameter_begin (a : Z) (t : XTable) : XTable :=
  {| chain := chain t; current_record := current_record t;
     counter := counter t; buffer_max_items := buffer_max_items t;
     xitem := xitem t;
     eeprom := eeprom t; eeprom_header_begin := eeprom_header_begin t;
     eeprom_parameter_begin := a;
     eeprom_max_items := eeprom_max_items t;
     top_status_ptr := top_status_ptr t;
     top_parameter_ptr := top_parameter_ptr t |}.

Definition set_eeprom_max_items (n : Z) (t : XTable) : XTable :=
  {| chain := chain t; current_record := current_record t;
     counter := counter t; buffer_max_items := buffer_max_items t;
     xitem := xitem t;
     eeprom := eeprom t; eeprom_header_begin := eeprom_header_begin t;
     eeprom_parameter_begin := eeprom_parameter_begin t;
     eeprom_max_items := n;
     top_status_ptr := top_status_ptr t;
     top_parameter_ptr := top_parameter_ptr t |}.

Definition set_top_status_ptr (a : Z) (t : XTable) : XTable :=
  {| chain := chain t; current_record := current_record t;
     counter := counter t; buffer_max_items := buffer_max_items t;
     xitem := xitem t;
     eeprom := eeprom t; eeprom_header_begin := eeprom_header_begin t;
     eeprom_parameter_begin := eeprom_parameter_begin t;
     eeprom_max_items := eeprom_max_items t;
     top_status_ptr := a;
     top_parameter_ptr := top_parameter_ptr t |}.

Definition set_top_parameter_ptr (a : Z) (t : XTable) : XTable :=
  {| chain := chain t; current_record := current_record t;
     counter := counter t; buffer_max_items := buffer_max_items t;
     xitem := xitem t;
     eeprom := eeprom t; eeprom_header_begin := eeprom_header_begin t;
     eeprom_parameter_begin := eeprom_parameter_begin t;
     eeprom_max_items := eeprom_max_items t;
     top_status_ptr := top_status_ptr t;
     top_parameter_ptr := a |}.

(** ** Member functions as state transformers

    A call either returns a value and a new state, or dereferences a null
    (or unallocated) pointer, or exhausts the fuel given to one of its
    loops. *)
Inductive outcome (A : Type) : Type :=
  | Ok (a : A) (t : XTable)
  | Fault
  | OutOfFuel.
Arguments Ok {A} a t.
Arguments Fault {A}.
Arguments OutOfFuel {A}.

Definition M (A : Type) : Type := XTable → outcome A.

Definition ret {A} (a : A) : M A := fun t => Ok a t.

Definition bind {A B} (m : M A) (k : A → M B) : M B :=
  fun t => match m t with
           | Ok a t' => k a t'
           | Fault => Fault
           | OutOfFuel => OutOfFuel
           end.

Definition gets {A} (f : XTable → A) : M A := fun t => Ok (f t) t.
Definition modify (f : XTable → XTable) : M unit := fun t => Ok tt (f t).
Definition fault {A} : M A := fun _ => Fault.
Definition out_of_fuel {A} : M A := fun _ => OutOfFuel.

Notation "x <- m ;; k" := (bind m (fun x => k))
  (at level 100, m at next level, right associativity).
Notation "m ;;; k" := (bind m (fun _ => k))
  (at level 100, right associativity).

(** [first_record]: the head of the chain, [NULL] before [InitBuffer]. *)
Definition first_record (t : XTable) : option nat :=
  match chain t with [] => None | _ :: _ => Some 0%nat end.

(** [*current_record]. *)
Definition cur_node : M XItem := fun t =>
  match current_record t with
  | Some i => match chain t !! i with Some n => Ok n t | None => Fault end
  | None => Fault
  end.

(** [current_record->next]. *)
Definition cur_next : M (option nat) := fun t =>
  match current_record t with
  | Some i =>
      match chain t !! i with
      | Some _ => Ok (if decide (S i < length (chain t))%nat
                      then Some (S i) else None) t
      | None => Fault
      end
  | None => Fault
  end.

(** [current_record->enabled = b] and [current_record->item = x]. *)
Definition put_enabled (b : bool) : M unit :=
  n <- cur_node ;;
  i <- gets current_record ;;
  modify (fun t => set_chain
    (<[default 0%nat i := {| item := item n; enabled := b |}]> (chain t)) t).

Definition put_item (x : X) : M unit :=
  n <- cur_node ;;
  i <- gets current_record ;;
  modify (fun t => set_chain
    (<[default 0%nat i := {| item := x; enabled := enabled n |}]> (chain t)) t).

(** The constructor: [Init()], [first_record = NULL],
    [eeprom_max_items = -1]; [mem] is the content of the device. The
    members the constructor leaves unset are never read before they are
    written, except by [GetTopAddressStorage]; they start at 0 here. *)
Definition XTable_new (mem : Z → Z) : XTable :=
  {| chain := []; current_record := None; counter := 0;
     buffer_max_items := 0; xitem := None; eeprom := mem;
     eeprom_header_begin := 0; eeprom_parameter_begin := 0;
     eeprom_max_items := -1; top_status_ptr := 0; top_parameter_ptr := 0 |}.

(** [Init()]; the scratch pointer [new_record] is not part of the state. *)
Definition Init : M unit :=
  modify (set_current_record None) ;;;
  modify (set_counter 0).

(** A pointer used as a condition. *)
Definition non_null (p : option nat) : bool :=
  match p with Some _ => true | None => false end.

(** ** The working-set table *)

(** The [do ... while] of [InitBuffer]. [heap] lists the objects the
    allocator can still hand out, with whatever their fields hold ([new]
    does not initialise them); on an empty heap [new] returns [NULL]. The
    loop returns [it] and the rest of the heap. *)
Fixpoint InitBuffer_loop (heap : list XItem) (it max_items : Z)
  : M (Z * list XItem) :=
  match heap with
  | [] =>
      modify (set_current_record None) ;;;
      ret (wrap_uint (it + 1), [])
  | h :: heap' =>
      modify (fun t => set_current_record (Some (length (chain t)))
                         (set_chain (chain t ++ [h]) t)) ;;;
      let it' := wrap_uint (it + 1) in
      if it' <? wrap_uint max_items
      then InitBuffer_loop heap' it' max_items
      else ret (it', heap')
  end.

Definition InitBuffer (max_items : Z) (heap : list XItem) : M bool :=
  f <- gets first_record ;;
  if non_null f then ret false else
  match heap with
  | [] => ret false
  | h :: heap' =>
      modify (set_chain [h]) ;;;
      modify (set_current_record (Some 0%nat)) ;;;
      r <- InitBuffer_loop heap' 0 max_items ;;
      if fst r <? wrap_uint max_items then ret false else
      cur_node ;;;
      modify (set_buffer_max_items (wrap_uint max_items)) ;;;
      modify (set_xitem (head (snd r))) ;;;
      ret true
  end.

(** [while ((current_record->next) && (current_record->enabled))]. *)
Fixpoint Insert_loop (fuel : nat) : M unit :=
  match fuel with
  | O => out_of_fuel
  | S fuel' =>
      nxt <- cur_next ;;
      n <- cur_node ;;
      if non_null nxt && enabled n
      then modify (set_current_record nxt) ;;; Insert_loop fuel'
      else ret tt
  end.

Definition Insert (x : X) : M bool :=
  f <- gets first_record ;;
  modify (set_current_record f) ;;;
  c <- gets current_record ;;
  full <- match c with
          | Some _ =>
              len <- gets (fun t => length (chain t)) ;;
              Insert_loop len ;;;
              nxt <- cur_next ;;
              ret (negb (non_null nxt))
          | None => ret false
          end ;;
  if full then ret false else
  put_enabled true ;;;
  put_item x ;;;
  modify (fun t => set_counter (wrap_uint (counter t + 1)) t) ;;;
  ret true.

(** The result is the payload the returned pointer designates. *)
Definition Select : M (option X) :=
  n <- cur_node ;;
  if negb (enabled n) then ret None else ret (Some (item n)).

Definition Update (x : X) : M bool :=
  c <- gets current_record ;;
  if negb (non_null c) then ret false else
  put_item x ;;;
  ret true.

Definition Delete : M bool :=
  c <- gets current_record ;;
  if negb (non_null c) then ret false else
  put_enabled false ;;;
  modify (fun t => set_counter (wrap_uint (counter t - 1)) t) ;;;
  ret true.

(** The [do ... while (current_record)] of [Clean]. *)
Fixpoint Clean_loop (fuel : nat) : M unit :=
  match fuel with
  | O => out_of_fuel
  | S fuel' =>
      put_enabled false ;;;
      nxt <- cur_next ;;
      modify (set_current_record nxt) ;;;
      if non_null nxt then Clean_loop fuel' else ret tt
  end.

Definition Clean : M unit :=
  f <- gets first_record ;;
  (if non_null f
   then modify (set_current_record f) ;;;
        len <- gets (fun t => length (chain t)) ;;
        Clean_loop len
   else ret tt) ;;;
  Init.

(** [Next] calls itself once per disabled node it steps over. *)
Fixpoint Next_rec (fuel : nat) : M bool :=
  match fuel with
  | O => out_of_fuel
  | S fuel' =>
      f <- gets first_record ;;
      c <- gets current_record ;;
      if negb (non_null f) || negb (non_null c) then ret false else
      nxt <- cur_next ;;
      modify (set_current_record nxt) ;;;
      (if non_null nxt
       then n <- cur_node ;;
            if negb (enabled n) then Next_rec fuel' ;;; ret tt else ret tt
       else ret tt) ;;;
      c' <- gets current_record ;;
      ret (non_null c')
  end.

Definition Next : M bool :=
  len <- gets (fun t => length (chain t)) ;;
  Next_rec (S len).

Definition Top : M bool :=
  f <- gets first_record ;;
  if negb (non_null f) then ret false else
  modify (set_current_record f) ;;;
  n <- cur_node ;;
  if negb (enabled n) then Next else ret (enabled n).

Definition Counter : M Z := gets counter.

(** ** The wear-levelling store *)

Definition rd (a : Z) : M Z := gets (fun t => eeprom_read (eeprom t) a).

Definition wr (a v : Z) : M unit :=
  modify (fun t => set_eeprom (eeprom_write (eeprom t) a v) t).

Definition GetTopAddressStorage : M Z := gets top_parameter_ptr.

Definition NextFreeAddressStorage : M Z :=
  gets (fun t =>
    if eeprom_max_items t <? 0 then -1
    else wrap_int (eeprom_max_items t * sizeof_XItem + eeprom_max_items t
                   + 4 + eeprom_header_begin t)).

Definition IncCurrentLocation (curr_location : Z) : M Z :=
  gets (fun t =>
    if wrap_int (curr_location + 1 - 2)
       <? wrap_int (eeprom_header_begin t + eeprom_max_items t)
    then wrap_int (curr_location + 1)
    else wrap_int (eeprom_header_begin t + 2)).

Definition GetLocationFromStatus (curr_status_ptr : Z) : M Z :=
  gets (fun t =>
    wrap_int ((curr_status_ptr - eeprom_header_begin t - 2) * sizeof_XItem
              + eeprom_parameter_begin t)).

(** The [while] of [GetTopLocation]; it returns [current_location]. Both
    operands of [==] are promoted to [int]: the right-hand side can be 256. *)
Fixpoint GetTopLocation_loop (fuel : nat) (current_location next_location : Z)
  : M Z :=
  match fuel with
  | O => out_of_fuel
  | S fuel' =>
      vn <- rd next_location ;;
      vc <- rd current_location ;;
      if vn =? vc + 1
      then next' <- IncCurrentLocation next_location ;;
           GetTopLocation_loop fuel' next_location next'
      else ret current_location
  end.

Definition GetTopLocation : M unit :=
  hb <- gets eeprom_header_begin ;;
  let current_location := wrap_int (hb + 2) in
  let next_location := wrap_int (current_location + 1) in
  c <- GetTopLocation_loop 256 current_location next_location ;;
  modify (set_top_status_ptr c) ;;;
  p <- GetLocationFromStatus c ;;
  modify (set_top_parameter_ptr p).

Definition PutTopLocation : M unit :=
  ts <- gets top_status_ptr ;;
  current_value <- rd ts ;;
  ts' <- IncCurrentLocation ts ;;
  modify (set_top_status_ptr ts') ;;;
  wr ts' (current_value + 1) ;;;
  p <- GetLocationFromStatus ts' ;;
  modify (set_top_parameter_ptr p).

(** The format test, spelled out identically in [InitStorage] and in
    [CheckStorage]: both markers and the stored size are as expected. *)
Definition header_ok (m : Z → Z) (hb mx : Z) : bool :=
  (eeprom_read m hb =? BMK)
  && (eeprom_read m (wrap_int (hb + mx + 2)) =? EMK)
  && (eeprom_read m (wrap_int (hb + 1)) =? mx).

Definition CheckStorage : M bool :=
  mx <- gets eeprom_max_items ;;
  hb <- gets eeprom_header_begin ;;
  if (mx <=? 0) || (mx >? 255) || (hb <? 0) then ret false else
  fmt <- gets (fun t => header_ok (eeprom t) hb mx) ;;
  if fmt
  then GetTopLocation ;;; ret true
  else ret false.

Definition InitStorage (start_location max_items : Z) : M bool :=
  modify (set_eeprom_max_items (-1)) ;;;
  if (max_items <=? 0) || (max_items >? 255) || (start_location <? 0)
  then ret false else
  modify (set_eeprom_header_begin start_location) ;;;
  modify (set_eeprom_max_items max_items) ;;;
  modify (fun t => set_eeprom_parameter_begin
    (wrap_int (start_location + eeprom_max_items t + 4)) t) ;;;
  nf <- NextFreeAddressStorage ;;
  if wrap_int (nf - 1) >? E2END then ret false else
  hb <- gets eeprom_header_begin ;;
  mx <- gets eeprom_max_items ;;
  fmt <- gets (fun t => header_ok (eeprom t) hb mx) ;;
  (if negb fmt
   then modify (fun t => set_eeprom
          (eeprom_Fill (eeprom t) start_location
             (wrap_uint (max_items * sizeof_XItem + max_items + 4)) 0) t) ;;;
        wr start_location BMK ;;;
        wr (wrap_int (start_location + max_items + 2)) EMK ;;;
        wr (wrap_int (start_location + 1)) max_items
   else ret tt) ;;;
  CheckStorage.

(** The [do ... while (Next())] of [SaveStorage]. *)
Fixpoint SaveStorage_loop (fuel : nat) (curr_status_ptr curr_parameter_ptr : Z)
  : M unit :=
  match fuel with
  | O => out_of_fuel
  | S fuel' =>
      n <- cur_node ;;
      xi <- gets xitem ;;
      match xi with
      | None => fault
      | Some _ =>
          let x := {| item := item n; enabled := enabled n |} in
          modify (set_xitem (Some x)) ;;;
          modify (fun t => set_eeprom
            (eeprom_Write (eeprom t) curr_parameter_ptr x) t) ;;;
          sp <- IncCurrentLocation curr_status_ptr ;;
          pp <- GetLocationFromStatus sp ;;
          more <- Next ;;
          if more then SaveStorage_loop fuel' sp pp else ret tt
      end
  end.

Definition SaveStorage : M bool :=
  ok <- CheckStorage ;;
  if negb ok then ret false else
  PutTopLocation ;;;
  curr_status_ptr <- gets top_status_ptr ;;
  curr_parameter_ptr <- gets top_parameter_ptr ;;
  some <- Top ;;
  (if some
   then len <- gets (fun t => length (chain t)) ;;
        SaveStorage_loop len curr_status_ptr curr_parameter_ptr
   else ret tt) ;;;
  tp <- gets top_parameter_ptr ;;
  c <- gets counter ;;
  wr (wrap_int (tp - 1)) c ;;;
  dataCheck <- CheckStorage ;;
  tp' <- gets top_parameter_ptr ;;
  v <- rd (wrap_int (tp' - 1)) ;;
  c' <- Counter ;;
  ret (dataCheck && (v =? c')).

(** The [while (idx < count)] of [LoadStorage]; [n] is [count - idx]. *)
Fixpoint LoadStorage_loop (n : nat) (curr_status_ptr curr_parameter_ptr : Z)
  : M bool :=
  match n with
  | O => ret true
  | S n' =>
      x <- gets (fun t => eeprom_Read (eeprom t) curr_parameter_ptr) ;;
      modify (set_xitem (Some x)) ;;;
      ok <- Insert (item x) ;;
      if ok
      then put_enabled (enabled x) ;;;
           sp <- IncCurrentLocation curr_status_ptr ;;
           pp <- GetLocationFromStatus sp ;;
           LoadStorage_loop n' sp pp
      else ret false
  end.

Definition LoadStorage : M bool :=
  ok <- CheckStorage ;;
  if negb ok then ret false else
  Clean ;;;
  tp <- gets top_parameter_ptr ;;
  count <- rd (wrap_int (tp - 1)) ;;
  curr_status_ptr <- gets top_status_ptr ;;
  curr_parameter_ptr <- gets top_parameter_ptr ;;
  LoadStorage_loop (Z.to_nat count) curr_status_ptr curr_parameter_ptr.

(** ** Sequences of public calls *)

Inductive op : Type :=
  | OpInitBuffer (max_items : Z) (heap : list XItem)
  | OpInsert (x : X)
  | OpSelect
  | OpUpdate (x : X)
  | OpDelete
  | OpClean
  | OpCounter
  | OpTop
  | OpNext
  | OpInitStorage (start_location max_items : Z)
  | OpSaveStorage
  | OpLoadStorage.

(** What a call hands back to its caller. *)
Inductive result : Type :=
  | RBool (b : bool)
  | RPayload (x : option X)
  | RCount (n : Z)
  | RVoid.

Definition exec (o : op) : M result :=
  match o with
  | OpInitBuffer n heap => b <- InitBuffer n heap ;; ret (RBool b)
  | OpInsert x => b <- Insert x ;; ret (RBool b)
  | OpSelect => p <- Select ;; ret (RPayload p)
  | OpUpdate x => b <- Update x ;; ret (RBool b)
  | OpDelete => b <- Delete ;; ret (RBool b)
  | OpClean => Clean ;;; ret RVoid
  | OpCounter => n <- Counter ;; ret (RCount n)
  | OpTop => b <- Top ;; ret (RBool b)
  | OpNext => b <- Next ;; ret (RBool b)
  | OpInitStorage s n => b <- InitStorage s n ;; ret (RBool b)
  | OpSaveStorage => b <- SaveStorage ;; ret (RBool b)
  | OpLoadStorage => b <- LoadStorage ;; ret (RBool b)
  end.

Fixpoint run (os : list op) : M (list result) :=
  match os with
  | [] => ret []
  | o :: os' => r <- exec o ;; rs <- run os' ;; ret (r :: rs)
  end.

(** ** Notions used to state the properties *)

(** The caller's enumeration idiom, as in [SaveStorage]:
    [if (Top()) do { visit current_record } while (Next());]
    It returns the nodes visited, in the order of the visits. *)
Fixpoint enumerate_loop (fuel : nat) : M (list nat) :=
  match fuel with
  | O => out_of_fuel
  | S fuel' =>
      c <- gets current_record ;;
      more <- Next ;;
      rest <- (if more then enumerate_loop fuel' else ret []) ;;
      ret (default 0%nat c :: rest)
  end.

Definition enumerate : M (list nat) :=
  some <- Top ;;
  if some
  then len <- gets (fun t => length (chain t)) ;;
       enumerate_loop len
  else ret [].

(** The first enabled node among [l], whose head is node number [i]. *)
Fixpoint find_enabled (l : list XItem) (i : nat) : option nat :=
  match l with
  | [] => None
  | x :: l' => if enabled x then Some i else find_enabled l' (S i)
  end.

(** The numbers of the enabled nodes among [l], in chain order. *)
Fixpoint enabled_indices (l : list XItem) (i : nat) : list nat :=
  match l with
  | [] => []
  | x :: l' =>
      if enabled x then i :: enabled_indices l' (S i)
      else enabled_indices l' (S i)
  end.

(** A node after [enabled = false]. *)
Definition disable (n : XItem) : XItem :=
  {| item := item n; enabled := false |}.

(** The state a call of [Clean] leaves behind. *)
Definition cleaned (t : XTable) : XTable :=
  set_counter 0 (set_current_record None (set_chain (disable <$> chain t) t)).

(** Where the scan of [Insert] stops: the first node that is disabled or
    last, among [l] whose head is node number [i]. *)
Fixpoint scan_to (l : list XItem) (i : nat) : nat :=
  match l with
  | [] => i
  | n :: l' =>
      match l' with
      | [] => i
      | _ :: _ => if enabled n then scan_to l' (S i) else i
      end
  end.

(** [preserves P m]: when [m] returns, it is in a state where [P] still
    holds. *)
Definition preserves {A} (P : XTable → Prop) (m : M A) : Prop :=
  ∀ t a t', P t → m t = Ok a t' → P t'.

(** Properties that no assignment to the cursor, to the scratch record, to
    the storage members or to the fields of a node can break. *)
Record frame (P : XTable → Prop) : Prop := {
  frame_current_record : ∀ t c, P t → P (set_current_record c t);
  frame_buffer_max_items : ∀ t n, P t → P (set_buffer_max_items n t);
  frame_xitem : ∀ t xi, P t → P (set_xitem xi t);
  frame_eeprom : ∀ t m, P t → P (set_eeprom m t);
  frame_eeprom_header_begin : ∀ t a, P t → P (set_eeprom_header_begin a t);
  frame_eeprom_parameter_begin :
    ∀ t a, P t → P (set_eeprom_parameter_begin a t);
  frame_eeprom_max_items : ∀ t n, P t → P (set_eeprom_max_items n t);
  frame_top_status_ptr : ∀ t a, P t → P (set_top_status_ptr a t);
  frame_top_parameter_ptr : ∀ t a, P t → P (set_top_parameter_ptr a t);
  frame_node : ∀ t i n, P t → P (set_chain (<[i := n]> (chain t)) t)
}.

(** The chain has [n + 1] nodes. *)
Definition chain_len (n : nat) (t : XTable) : Prop :=
  length (chain t) = S n.

(** What one call does to the counter, given what it returned. *)
Definition counter_step (o : op) (r : result) (c : Z) : Z :=
  match o, r with
  | OpInsert _, RBool true => wrap_uint (c + 1)
  | OpDelete, RBool true => wrap_uint (c - 1)
  | _, _ => c
  end.

(** The state a call leaves behind ([t] itself when it does not return). *)
Definition state_after {A} (m : M A) (t : XTable) : XTable :=
  match m t with Ok _ t' => t' | _ => t end.

(** The value a call returns, if it returns. *)
Definition returned {A} (o : outcome A) : option A :=
  match o with Ok a _ => Some a | _ => None end.

(** [IncCurrentLocation] and [GetLocationFromStatus] as functions of the
    members they read. *)
Definition inc_location (hb mx p : Z) : Z :=
  if wrap_int (p + 1 - 2) <? wrap_int (hb + mx)
  then wrap_int (p + 1)
  else wrap_int (hb + 2).

Definition location (hb pb p : Z) : Z :=
  wrap_int ((p - hb - 2) * sizeof_XItem + pb).

(** The walk of [GetTopLocation] as a function of the store. *)
Fixpoint walk (fuel : nat) (m : Z → Z) (hb mx c n : Z) : option Z :=
  match fuel with
  | O => None
  | S fuel' =>
      if eeprom_read m n =? eeprom_read m c + 1
      then walk fuel' m hb mx n (inc_location hb mx n)
      else Some c
  end.

Definition top_status (m : Z → Z) (hb mx : Z) : Z :=
  default 0 (walk 256 m hb mx (wrap_int (hb + 2))
               (wrap_int (wrap_int (hb + 2) + 1))).

(** The state [GetTopLocation] leaves behind. *)
Definition located (t : XTable) : XTable :=
  let c := top_status (eeprom t) (eeprom_header_begin t) (eeprom_max_items t) in
  set_top_parameter_ptr
    (location (eeprom_header_begin t) (eeprom_parameter_begin t) c)
    (set_top_status_ptr c t).

(** The guard of [CheckStorage] and of [InitStorage]. *)
Definition bad_config (mx hb : Z) : bool :=
  (mx <=? 0) || (mx >? 255) || (hb <? 0).

(** The members [InitStorage] sets before it looks at the store. *)
Definition attach (s n : Z) (t : XTable) : XTable :=
  set_eeprom_parameter_begin (wrap_int (s + n + 4))
    (set_eeprom_max_items n
       (set_eeprom_header_begin s (set_eeprom_max_items (-1) t))).

(** The store after the reformat of [InitStorage]. *)
Definition format (m : Z → Z) (s n : Z) : Z → Z :=
  eeprom_write
    (eeprom_write
       (eeprom_write
          (eeprom_Fill m s (wrap_uint (n * sizeof_XItem + n + 4)) 0)
          s BMK)
       (wrap_int (s + n + 2)) EMK)
    (wrap_int (s + 1)) n.



(** The status bytes of a region of at least two slots carry the stamps of
    saves up to position [i], counted from the first status byte: every
    byte up to position [i] is one more than the byte before it, the byte
    at position [i] is below 255, and where the region has a first and a
    second byte after position [i], they are not that byte plus one and plus
    two. *)
Definition stamps_end_at (m : Z → Z) (hb mx i : Z) : Prop :=
  2 <= mx ∧ 0 <= i < mx
  ∧ (∀ j : Z, 0 <= j < i →
       eeprom_read m (hb + 2 + j + 1) = eeprom_read m (hb + 2 + j) + 1)
  ∧ eeprom_read m (hb + 2 + i) < 255
  ∧ (i + 1 < mx →
       eeprom_read m (hb + 2 + i + 1) ≠ eeprom_read m (hb + 2 + i) + 1)
  ∧ (i + 2 < mx →
       eeprom_read m (hb + 2 + i + 2) ≠ eeprom_read m (hb + 2 + i) + 2).

(** A region whose addresses all fit an [int]. *)
Definition region_ok (hb mx : Z) : Prop :=
  1 <= mx <= 255 ∧ 0 <= hb ∧ hb + mx * sizeof_XItem + mx + 4 <= 32767.

(** The address of the data slot paired with status position
    [hb + 2 + k]. *)
Definition data_slot (hb mx k : Z) : Z :=
  hb + mx + 4 + k * sizeof_XItem.


(** The live set: the enabled nodes, in chain order. *)
Definition live (t : XTable) : list XItem :=
  filter (fun x => enabled x = true) (chain t).

(** How many calls of a trace were [Insert]s, resp. [Delete]s, that
    returned [true]. *)
Fixpoint inserts_ok (os : list op) (rs : list result) : Z :=
  match os, rs with
  | OpInsert _ :: os', RBool true :: rs' => 1 + inserts_ok os' rs'
  | _ :: os', _ :: rs' => inserts_ok os' rs'
  | _, _ => 0
  end.

Fixpoint deletes_ok (os : list op) (rs : list result) : Z :=
  match os, rs with
  | OpDelete :: os', RBool true :: rs' => 1 + deletes_ok os' rs'
  | _ :: os', _ :: rs' => deletes_ok os' rs'
  | _, _ => 0
  end.

(** Calls that start a new counting period: [Clean], and [LoadStorage],
    which calls it. *)
Definition cleans (o : op) : bool :=
  match o with
  | OpClean | OpLoadStorage => true
  | _ => false
  end.

End XTable.

Arguments XItem X : clear implicits.
Arguments XTable X : clear implicits.
Arguments outcome X A : clear implicits.
Arguments M X A : clear implicits.
Arguments op X : clear implicits.
Arguments result X : clear implicits.
Arguments Ok {X A} a t.
Arguments preserves {X A} P m.
Arguments state_after {X A} m t.
Arguments returned {X A} o.
Arguments Fault {X A}.
Arguments OutOfFuel {X A}.

(** ** A concrete payload: one byte *)

(** [XTable<uint8_t>]: the payload is a single byte, [sizeof(X) = 1]; a
    [bool] object is taken to be true only when it holds 1. *)
#[export] Instance byte_payload : Payload Byte.byte := {|
  sizeof_X := 1;
  encode := fun b => [Z.of_N (Byte.to_N b)];
  decode := fun l =>
    match Byte.of_N (Z.to_N (hd 0 l)) with Some b => b | None => Byte.x00 end;
  flag_of_byte := fun b => b =? 1
|}.

(** ** A small device, for concrete runs *)

(** An erased EEPROM (every cell 0xFF), [E2END] of an ATmega328P, a heap
    that can hand out four objects whose flags happen to be set. *)
Definition demo_mem : Z → Z := fun _ => 255.

Definition demo_E2END : Z := 1023.

Definition demo_heap : list (XItem Byte.byte) :=
  replicate 4 {| item := Byte.x00; enabled := true |}.

Definition demo_new : XTable Byte.byte := XTable_new demo_mem.

(** [InitBuffer(2); Clean();] *)
Definition demo_buffer : XTable Byte.byte :=
  state_after (run demo_E2END [OpInitBuffer 2 demo_heap; OpClean]) demo_new.

(** [... InitStorage(0, 3);] *)
Definition demo_table : XTable Byte.byte :=
  state_after (InitStorage demo_E2END 0 3) demo_buffer.

(** [... Insert('a');] *)
Definition demo_a : XTable Byte.byte :=
  state_after (Insert Byte.x61) demo_table.

(** [... Insert('a'); Insert('b');]: the table is full. *)
Definition demo_ab : XTable Byte.byte :=
  state_after (Insert Byte.x62) demo_a.


(** [... Insert('a'); Insert('b'); Delete(); Delete();] *)
Definition demo_a_deleted_twice : XTable Byte.byte :=
  state_after (run demo_E2END [OpDelete; OpDelete]) demo_ab.

(** [... Insert('a');] and then 256 calls of [SaveStorage()]: the status
    bytes are 255, 0, 254. *)
Definition demo_256_saves : XTable Byte.byte :=
  state_after (run demo_E2END (replicate 256 OpSaveStorage)) demo_a.

(** * Properties *)

Section Properties.

Context {X : Type} `{Payload X}.
Variable E2END : Z.

Implicit Types (t : XTable X) (l : list (XItem X)) (x : X) (i j : nat).
Implicit Types (P : XTable X → Prop) (heap : list (XItem X)).

#[local] Arguments cur_node : simpl never.
#[local] Arguments cur_next : simpl never.
#[local] Arguments put_enabled : simpl never.
#[local] Arguments put_item : simpl never.
#[local] Arguments Next : simpl never.
#[local] Arguments Top : simpl never.
#[local] Arguments Clean : simpl never.
#[local] Arguments Insert : simpl never.
#[local] Arguments first_record : simpl never.
#[local] Arguments wrap_int : simpl never.
#[local] Arguments wrap_uint : simpl never.
#[local] Arguments wrap_u8 : simpl never.
#[local] Arguments eeprom_read : simpl never.
#[local] Arguments eeprom_write : simpl never.

Ltac munfold :=
  unfold rd, wr; unfold bind, ret, gets, modify, fault, out_of_fuel.

Ltac sunfold :=
  unfold set_chain, set_current_record, set_counter, set_buffer_max_items,
    set_xitem, set_eeprom, set_eeprom_header_begin,
    set_eeprom_parameter_begin, set_eeprom_max_items, set_top_status_ptr,
    set_top_parameter_ptr; cbn.

(** ** Machine integers *)

Lemma wrap_int_small (z : Z) : -32768 <= z < 32768 → wrap_int z = z.
Proof. intros Hz. unfold wrap_int. rewrite Z.mod_small; lia. Qed.

Lemma wrap_uint_small (z : Z) : 0 <= z < 65536 → wrap_uint z = z.
Proof. intros Hz. unfold wrap_uint. apply Z.mod_small; lia. Qed.

Lemma wrap_u8_small (z : Z) : 0 <= z < 256 → wrap_u8 z = z.
Proof. intros Hz. unfold wrap_u8. apply Z.mod_small; lia. Qed.

Lemma wrap_uint_range (z : Z) : 0 <= wrap_uint z < 65536.
Proof. unfold wrap_uint. apply Z.mod_pos_bound. lia. Qed.

Lemma wrap_uint_add_l (a b : Z) : wrap_uint (wrap_uint a + b) = wrap_uint (a + b).
Proof. unfold wrap_uint. apply Zplus_mod_idemp_l. Qed.

Lemma eeprom_read_range (m : Z → Z) (a : Z) : 0 <= eeprom_read m a < 256.
Proof. unfold eeprom_read, wrap_u8. apply Z.mod_pos_bound. lia. Qed.

(** ** Node pointers *)

Lemma XTable_eta t :
  t = {| chain := chain t; current_record := current_record t;
         counter := counter t; buffer_max_items := buffer_max_items t;
         xitem := xitem t; eeprom := eeprom t;
         eeprom_header_begin := eeprom_header_begin t;
         eeprom_parameter_begin := eeprom_parameter_begin t;
         eeprom_max_items := eeprom_max_items t;
         top_status_ptr := top_status_ptr t;
         top_parameter_ptr := top_parameter_ptr t |}.
Proof. by destruct t. Qed.

Lemma cur_node_at t i n :
  current_record t = Some i → chain t !! i = Some n → cur_node t = Ok n t.
Proof. intros Hc Hn. unfold cur_node. by rewrite Hc, Hn. Qed.

Lemma cur_next_at t i n :
  current_record t = Some i → chain t !! i = Some n →
  cur_next t
  = Ok (if decide (S i < length (chain t))%nat then Some (S i) else None) t.
Proof. intros Hc Hn. unfold cur_next. by rewrite Hc, Hn. Qed.

Lemma put_enabled_at t i n b :
  current_record t = Some i → chain t !! i = Some n →
  put_enabled b t
  = Ok tt (set_chain (<[i := {| item := item n; enabled := b |}]> (chain t)) t).
Proof.
  intros Hc Hn. unfold put_enabled. munfold.
  rewrite (cur_node_at t i n Hc Hn). by rewrite Hc.
Qed.

Lemma put_item_at t i n x :
  current_record t = Some i → chain t !! i = Some n →
  put_item x t
  = Ok tt (set_chain (<[i := {| item := x; enabled := enabled n |}]> (chain t)) t).
Proof.
  intros Hc Hn. unfold put_item. munfold.
  rewrite (cur_node_at t i n Hc Hn). by rewrite Hc.
Qed.

(** ** [Clean] *)

Lemma Clean_loop_spec fuel : ∀ t i,
  current_record t = Some i → (i < length (chain t))%nat →
  (length (chain t) - i ≤ fuel)%nat →
  Clean_loop fuel t
  = Ok tt (set_current_record None
             (set_chain (take i (chain t) ++ (disable <$> drop i (chain t))) t)).
Proof.
  induction fuel as [|fuel IH]; intros t i Hc Hi Hf; [lia|].
  destruct (lookup_lt_is_Some_2 (chain t) i Hi) as [n Hn].
  cbn [Clean_loop]. unfold bind at 1.
  rewrite (put_enabled_at t i n false Hc Hn).
  unfold bind at 1.
  erewrite cur_next_at; [|exact Hc|].
  2:{ cbn. apply list_lookup_insert_eq. exact Hi. }
  cbn [chain set_chain]. rewrite length_insert.
  munfold. cbn.
  assert (Hd : drop i (chain t) = n :: drop (S i) (chain t)).
  { by apply drop_S. }
  rewrite (insert_take_drop _ _ _ Hi).
  destruct (decide (S i < length (chain t))%nat) as [Hlt|Hge]; cbn.
  - etrans.
    { apply (IH _ (S i)); cbn; rewrite ?length_app, ?length_take; cbn;
        rewrite ?length_drop; try done; lia. }
    sunfold. do 2 f_equal.
    rewrite take_app_ge by (rewrite length_take; lia).
    rewrite drop_app_ge by (rewrite length_take; lia).
    rewrite length_take.
    replace (S i - i `min` length (chain t))%nat with 1%nat by lia.
    cbn. rewrite take_0, drop_0, Hd. cbn.
    by rewrite <- app_assoc.
  - sunfold. do 2 f_equal. rewrite Hd. cbn.
    rewrite (drop_ge _ (S i)) by lia. done.
Qed.

Lemma Clean_spec t : Clean t = Ok tt (cleaned t).
Proof.
  unfold Clean, cleaned, Init, first_record. munfold.
  destruct (chain t) as [|n l] eqn:Hl; cbn.
  - f_equal. rewrite (XTable_eta t) at 1. unfold set_counter, set_current_record, set_chain. cbn.
    by rewrite Hl.
  - rewrite (Clean_loop_spec _ _ 0%nat); cbn; rewrite ?Hl; cbn; try done; try lia.
Qed.

(** ** [Top] and [Next] *)

Lemma first_record_cons t : chain t ≠ [] → first_record t = Some 0%nat.
Proof. unfold first_record. by destruct (chain t). Qed.

Lemma Next_rec_spec fuel : ∀ t i,
  current_record t = Some i → (i < length (chain t))%nat →
  (length (chain t) - i ≤ fuel)%nat →
  Next_rec fuel t
  = let c := find_enabled (drop (S i) (chain t)) (S i) in
    Ok (non_null c) (set_current_record c t).
Proof.
  induction fuel as [|fuel IH]; intros t i Hc Hi Hf; [lia|].
  destruct (lookup_lt_is_Some_2 (chain t) i Hi) as [n Hn].
  cbn [Next_rec]. munfold.
  rewrite first_record_cons by (intros E; rewrite E in Hi; cbn in Hi; lia).
  rewrite Hc. cbn.
  rewrite (cur_next_at t i n Hc Hn).
  destruct (decide (S i < length (chain t))%nat) as [Hlt|Hge]; cbn.
  - destruct (lookup_lt_is_Some_2 (chain t) (S i) Hlt) as [n' Hn'].
    rewrite (drop_S _ _ _ Hn'). cbn.
    erewrite cur_node_at; [| reflexivity | exact Hn'].
    destruct (enabled n') eqn:En; cbn; [done|].
    rewrite (IH _ (S i)); cbn; try done; try lia.
  - rewrite drop_ge by lia. done.
Qed.

Lemma Next_spec t i :
  current_record t = Some i → (i < length (chain t))%nat →
  Next t
  = let c := find_enabled (drop (S i) (chain t)) (S i) in
    Ok (non_null c) (set_current_record c t).
Proof.
  intros Hc Hi. unfold Next. munfold.
  apply Next_rec_spec; [done|done|lia].
Qed.

Lemma Next_null t : current_record t = None → Next t = Ok false t.
Proof.
  intros Hc. unfold Next. munfold. cbn [Next_rec]. munfold.
  rewrite Hc. by rewrite orb_true_r.
Qed.

Lemma Top_spec t :
  chain t ≠ [] →
  Top t
  = let c := find_enabled (chain t) 0 in
    Ok (non_null c) (set_current_record c t).
Proof.
  intros Hne. unfold Top. munfold.
  rewrite (first_record_cons t Hne). cbn.
  destruct (chain t) as [|n l] eqn:Hl; [done|].
  erewrite cur_node_at; [| reflexivity | by cbn; rewrite Hl].
  cbn. destruct (enabled n) eqn:En; cbn; [done|].
  rewrite (Next_spec _ 0%nat); cbn; rewrite ?Hl; cbn; try done; try lia.
Qed.

Lemma Top_empty t : chain t = [] → Top t = Ok false t.
Proof. intros Hl. unfold Top, first_record. munfold. by rewrite Hl. Qed.

Lemma find_enabled_ge l : ∀ i j, find_enabled l i = Some j → (i ≤ j < i + length l)%nat.
Proof.
  induction l as [|n l IH]; intros i j; cbn; [done|].
  destruct (enabled n); [intros [= <-]; lia|].
  intros Hj. apply IH in Hj. lia.
Qed.

Lemma find_enabled_indices l : ∀ i,
  enabled_indices l i
  = match find_enabled l i with
    | Some j => j :: enabled_indices (drop (S (j - i)) l) (S j)
    | None => []
    end.
Proof.
  induction l as [|n l IH]; intros i; cbn; [done|].
  destruct (enabled n).
  - by replace (i - i)%nat with 0%nat by lia.
  - rewrite IH. destruct (find_enabled l (S i)) as [j|] eqn:Ej; [|done].
    apply find_enabled_ge in Ej.
    by replace (j - i)%nat with (S (j - S i)) by lia.
Qed.

Lemma enumerate_loop_spec fuel : ∀ t i,
  current_record t = Some i → (i < length (chain t))%nat →
  (length (chain t) - i ≤ fuel)%nat →
  enumerate_loop fuel t
  = Ok (i :: enabled_indices (drop (S i) (chain t)) (S i))
       (set_current_record None t).
Proof.
  induction fuel as [|fuel IH]; intros t i Hc Hi Hf; [lia|].
  cbn [enumerate_loop]. munfold. rewrite Hc.
  rewrite (Next_spec t i Hc Hi). cbn.
  rewrite (find_enabled_indices (drop (S i) (chain t))).
  destruct (find_enabled _ _) as [j|] eqn:Ej; cbn; [|done].
  pose proof (find_enabled_ge _ _ _ Ej) as Hj. rewrite length_drop in Hj.
  rewrite (IH _ j); cbn; try done; try lia.
  rewrite drop_drop. by replace (S i + S (j - S i))%nat with (S j) by lia.
Qed.

(** ** [Insert], [Select], [Update], [Delete] *)

Lemma scan_to_bounds l : ∀ i, l ≠ [] → (i ≤ scan_to l i < i + length l)%nat.
Proof.
  induction l as [|n l IH]; intros i Hne; [done|]. cbn.
  destruct l as [|n' l]; [cbn; lia|].
  destruct (enabled n); [|cbn; lia].
  specialize (IH (S i)). cbn in IH |- *. specialize (IH ltac:(done)). lia.
Qed.

Lemma Insert_loop_spec fuel : ∀ t i,
  current_record t = Some i → (i < length (chain t))%nat →
  (length (chain t) - i ≤ fuel)%nat →
  Insert_loop fuel t
  = Ok tt (set_current_record (Some (scan_to (drop i (chain t)) i)) t).
Proof.
  induction fuel as [|fuel IH]; intros t i Hc Hi Hf; [lia|].
  destruct (lookup_lt_is_Some_2 (chain t) i Hi) as [n Hn].
  cbn [Insert_loop]. munfold.
  rewrite (cur_next_at t i n Hc Hn), (cur_node_at t i n Hc Hn).
  rewrite (drop_S _ _ _ Hn).
  destruct (decide (S i < length (chain t))%nat) as [Hlt|Hge]; cbn.
  - destruct (lookup_lt_is_Some_2 (chain t) (S i) Hlt) as [n' Hn'].
    rewrite (drop_S _ _ _ Hn').
    destruct (enabled n) eqn:En; cbn.
    + rewrite (IH _ (S i)); cbn; try done; try lia.
      by rewrite (drop_S _ _ _ Hn').
    + sunfold. by rewrite <- Hc, <- XTable_eta.
  - rewrite drop_ge by lia. sunfold. by rewrite <- Hc, <- XTable_eta.
Qed.

Lemma Insert_null t x : chain t = [] → Insert x t = Fault.
Proof.
  intros Hl. unfold Insert, first_record. munfold. rewrite Hl. cbn.
  unfold put_enabled, cur_node. munfold. done.
Qed.

Lemma Insert_spec t x :
  chain t ≠ [] →
  Insert x t
  = let k := scan_to (chain t) 0 in
    if decide (S k < length (chain t))%nat
    then Ok true (set_counter (wrap_uint (counter t + 1))
                   (set_chain (<[k := {| item := x; enabled := true |}]> (chain t))
                     (set_current_record (Some k) t)))
    else Ok false (set_current_record (Some k) t).
Proof.
  intros Hne. unfold Insert. munfold.
  rewrite (first_record_cons t Hne). cbn.
  assert (Hlen : (0 < length (chain t))%nat) by (destruct (chain t); cbn; [done|lia]).
  rewrite (Insert_loop_spec _ _ 0%nat); cbn; try done; try lia.
  rewrite drop_0. set (k := scan_to (chain t) 0).
  pose proof (scan_to_bounds (chain t) 0 Hne) as Hk. fold k in Hk.
  destruct (lookup_lt_is_Some_2 (chain t) k ltac:(lia)) as [n Hn].
  erewrite cur_next_at; [| reflexivity | exact Hn]. cbn.
  destruct (decide (S k < length (chain t))%nat) as [Hlt|Hge]; cbn; [|done].
  erewrite put_enabled_at; [| reflexivity | exact Hn].
  erewrite put_item_at; [| reflexivity | cbn; apply list_lookup_insert_eq; lia].
  sunfold. by rewrite list_insert_insert_eq.
Qed.

Lemma Delete_spec t i n :
  current_record t = Some i → chain t !! i = Some n →
  Delete t
  = Ok true (set_counter (wrap_uint (counter t - 1))
              (set_chain (<[i := disable n]> (chain t)) t)).
Proof.
  intros Hc Hn. unfold Delete. munfold. rewrite Hc. cbn.
  by rewrite (put_enabled_at t i n false Hc Hn).
Qed.

Lemma Delete_null t : current_record t = None → Delete t = Ok false t.
Proof. intros Hc. unfold Delete. munfold. by rewrite Hc. Qed.

Lemma Update_spec t i n x :
  current_record t = Some i → chain t !! i = Some n →
  Update x t
  = Ok true (set_chain (<[i := {| item := x; enabled := enabled n |}]> (chain t)) t).
Proof.
  intros Hc Hn. unfold Update. munfold. rewrite Hc. cbn.
  by rewrite (put_item_at t i n x Hc Hn).
Qed.

Lemma Update_null t x : current_record t = None → Update x t = Ok false t.
Proof. intros Hc. unfold Update. munfold. by rewrite Hc. Qed.

Lemma Select_null t : current_record t = None → Select t = Fault.
Proof. intros Hc. unfold Select, cur_node. munfold. by rewrite Hc. Qed.

(** ** What a call leaves untouched *)

Lemma preserves_ret {A} P (a : A) : preserves P (ret a).
Proof. intros t a' t' HP [= _ <-]. done. Qed.

Lemma preserves_gets {A} P (f : XTable X → A) : preserves P (gets f).
Proof. intros t a' t' HP [= _ <-]. done. Qed.

Lemma preserves_fault {A} P : preserves P (@fault X A).
Proof. intros t a' t' HP [=]. Qed.

Lemma preserves_out_of_fuel {A} P : preserves P (@out_of_fuel X A).
Proof. intros t a' t' HP [=]. Qed.

Lemma preserves_modify P (f : XTable X → XTable X) :
  (∀ t, P t → P (f t)) → preserves P (modify f).
Proof. intros Hf t a' t' HP [= _ <-]. by apply Hf. Qed.

Lemma preserves_bind {A B} P (m : M X A) (k : A → M X B) :
  preserves P m → (∀ a, preserves P (k a)) → preserves P (bind m k).
Proof.
  intros Hm Hk t b t' HP. unfold bind.
  destruct (m t) as [a t1| |] eqn:Em; [|done..].
  intros Ek. exact (Hk a t1 b t' (Hm t a t1 HP Em) Ek).
Qed.

Lemma preserves_cur_node P : preserves P cur_node.
Proof.
  intros t a t' HP. unfold cur_node.
  destruct (current_record t); [|done].
  destruct (chain t !! _); [|done]. by intros [= _ <-].
Qed.

Lemma preserves_cur_next P : preserves P cur_next.
Proof.
  intros t a t' HP. unfold cur_next.
  destruct (current_record t); [|done].
  destruct (chain t !! _); [|done]. by intros [= _ <-].
Qed.

Create HintDb pres discriminated.

#[local] Hint Resolve preserves_ret preserves_gets preserves_fault
  preserves_out_of_fuel preserves_cur_node preserves_cur_next : pres.
(** Peel the assignments off a goal [P (set_... t)] for a [frame] [P]. *)
Ltac frame_tac :=
  repeat match goal with
  | HF : frame ?P |- ?P (set_current_record _ _) =>
      apply (frame_current_record P HF)
  | HF : frame ?P |- ?P (set_buffer_max_items _ _) =>
      apply (frame_buffer_max_items P HF)
  | HF : frame ?P |- ?P (set_xitem _ _) => apply (frame_xitem P HF)
  | HF : frame ?P |- ?P (set_eeprom _ _) => apply (frame_eeprom P HF)
  | HF : frame ?P |- ?P (set_eeprom_header_begin _ _) =>
      apply (frame_eeprom_header_begin P HF)
  | HF : frame ?P |- ?P (set_eeprom_parameter_begin _ _) =>
      apply (frame_eeprom_parameter_begin P HF)
  | HF : frame ?P |- ?P (set_eeprom_max_items _ _) =>
      apply (frame_eeprom_max_items P HF)
  | HF : frame ?P |- ?P (set_top_status_ptr _ _) =>
      apply (frame_top_status_ptr P HF)
  | HF : frame ?P |- ?P (set_top_parameter_ptr _ _) =>
      apply (frame_top_parameter_ptr P HF)
  | HF : frame ?P |- ?P (set_chain (<[_ := _]> (chain _)) _) =>
      apply (frame_node P HF)
  | HC : ∀ t c, ?P t → ?P (set_counter c t) |- ?P (set_counter _ _) =>
      apply HC
  end; try assumption.

(** One step of a preservation proof: split a sequence, a branch or an
    assignment, or close the goal with a lemma already proved. *)
Ltac pres_step :=
  match goal with
  | |- preserves _ (bind _ _) => apply preserves_bind; [|intros ?]
  | |- preserves _ (modify _) =>
      apply preserves_modify; intros ? ?; solve [frame_tac]
  | |- preserves _ (if ?b then _ else _) => destruct b
  | |- preserves _ (match ?o with Some _ => _ | None => _ end) => destruct o
  | |- preserves _ (let _ := _ in _) => cbv zeta
  | |- preserves _ _ => solve [eauto with pres]
  | |- _ => solve [eauto 6 with pres]
  end.

Ltac pres := repeat pres_step.

Lemma preserves_put_enabled P b : frame P → preserves P (put_enabled b).
Proof. intros HP. unfold put_enabled. pres. Qed.

Lemma preserves_put_item P x : frame P → preserves P (put_item x).
Proof. intros HP. unfold put_item. pres. Qed.

#[local] Hint Resolve preserves_put_enabled preserves_put_item : pres.

Lemma preserves_Insert_loop P fuel : frame P → preserves P (Insert_loop fuel).
Proof. intros HP. induction fuel as [|fuel IH]; cbn [Insert_loop]; pres. Qed.

Lemma preserves_Clean_loop P fuel : frame P → preserves P (Clean_loop fuel).
Proof. intros HP. induction fuel as [|fuel IH]; cbn [Clean_loop]; pres. Qed.

Lemma preserves_Next_rec P fuel : frame P → preserves P (Next_rec fuel).
Proof. intros HP. induction fuel as [|fuel IH]; cbn [Next_rec]; pres. Qed.

#[local] Hint Resolve preserves_Insert_loop preserves_Clean_loop
  preserves_Next_rec : pres.

Lemma preserves_Next P : frame P → preserves P Next.
Proof. intros HP. unfold Next. pres. Qed.

#[local] Hint Resolve preserves_Next : pres.

Lemma preserves_Top P : frame P → preserves P Top.
Proof. intros HP. unfold Top. pres. Qed.

Lemma preserves_Select P : preserves P Select.
Proof. unfold Select. pres. Qed.

Lemma preserves_Update P x : frame P → preserves P (Update x).
Proof. intros HP. unfold Update. pres. Qed.

Lemma preserves_Counter P : preserves P Counter.
Proof. unfold Counter. pres. Qed.

#[local] Hint Resolve preserves_Top preserves_Select preserves_Update
  preserves_Counter : pres.

Lemma preserves_rd P a : preserves P (rd a).
Proof. unfold rd. pres. Qed.

Lemma preserves_wr P a v : frame P → preserves P (wr a v).
Proof. intros HP. unfold wr. pres. Qed.

Lemma preserves_IncCurrentLocation P a : preserves P (IncCurrentLocation a).
Proof. unfold IncCurrentLocation. pres. Qed.

Lemma preserves_GetLocationFromStatus P a :
  preserves P (GetLocationFromStatus a).
Proof. unfold GetLocationFromStatus. pres. Qed.

Lemma preserves_NextFreeAddressStorage P : preserves P NextFreeAddressStorage.
Proof. unfold NextFreeAddressStorage. pres. Qed.

#[local] Hint Resolve preserves_rd preserves_wr preserves_IncCurrentLocation
  preserves_GetLocationFromStatus preserves_NextFreeAddressStorage : pres.

Lemma preserves_GetTopLocation_loop P fuel c n :
  preserves P (GetTopLocation_loop fuel c n).
Proof.
  revert c n. induction fuel as [|fuel IH]; intros c n;
    cbn [GetTopLocation_loop]; pres.
Qed.

#[local] Hint Resolve preserves_GetTopLocation_loop : pres.

Lemma preserves_GetTopLocation P : frame P → preserves P GetTopLocation.
Proof. intros HP. unfold GetTopLocation. pres. Qed.

Lemma preserves_PutTopLocation P : frame P → preserves P PutTopLocation.
Proof. intros HP. unfold PutTopLocation. pres. Qed.

#[local] Hint Resolve preserves_GetTopLocation preserves_PutTopLocation : pres.

Lemma preserves_CheckStorage P : frame P → preserves P CheckStorage.
Proof. intros HP. unfold CheckStorage. pres. Qed.

#[local] Hint Resolve preserves_CheckStorage : pres.

Lemma preserves_InitStorage P s n :
  frame P → preserves P (InitStorage E2END s n).
Proof. intros HP. unfold InitStorage. pres. Qed.

Lemma preserves_SaveStorage_loop P fuel sp pp :
  frame P → preserves P (SaveStorage_loop fuel sp pp).
Proof.
  intros HP. revert sp pp.
  induction fuel as [|fuel IH]; intros sp pp; cbn [SaveStorage_loop]; pres.
Qed.

#[local] Hint Resolve preserves_InitStorage preserves_SaveStorage_loop : pres.

Lemma preserves_SaveStorage P : frame P → preserves P SaveStorage.
Proof. intros HP. unfold SaveStorage. pres. Qed.

#[local] Hint Resolve preserves_SaveStorage : pres.

(** ** Calls that also change the counter or the chain *)

Lemma preserves_Init P :
  frame P → (∀ t c, P t → P (set_counter c t)) → preserves P Init.
Proof.
  intros HP HC. unfold Init. pres. Qed.

Lemma preserves_Insert P x :
  frame P → (∀ t c, P t → P (set_counter c t)) → preserves P (Insert x).
Proof.
  intros HP HC. unfold Insert. pres. Qed.

Lemma preserves_Delete P :
  frame P → (∀ t c, P t → P (set_counter c t)) → preserves P Delete.
Proof.
  intros HP HC. unfold Delete. pres. Qed.

Lemma preserves_Clean P :
  frame P → (∀ t c, P t → P (set_counter c t)) → preserves P Clean.
Proof.
  intros HP HC. unfold Clean. pres. all: by apply preserves_Init.
Qed.

#[local] Hint Resolve preserves_Insert preserves_Delete preserves_Clean : pres.

Lemma preserves_LoadStorage_loop P n sp pp :
  frame P → (∀ t c, P t → P (set_counter c t)) →
  preserves P (LoadStorage_loop n sp pp).
Proof.
  intros HP HC. revert sp pp.
  induction n as [|n IH]; intros sp pp; cbn [LoadStorage_loop]; pres.
Qed.

#[local] Hint Resolve preserves_LoadStorage_loop : pres.

Lemma preserves_LoadStorage P :
  frame P → (∀ t c, P t → P (set_counter c t)) → preserves P LoadStorage.
Proof. intros HP HC. unfold LoadStorage. pres. Qed.

(** *** The length of the chain *)

Lemma chain_len_frame n : frame (@chain_len X n).
Proof.
  split; unfold chain_len; intros; cbn; try done. by rewrite length_insert.
Qed.

Lemma chain_len_counter n t c : chain_len n t → chain_len n (set_counter c t).
Proof. done. Qed.

Lemma preserves_len_InitBuffer n k heap :
  preserves (chain_len n) (InitBuffer k heap).
Proof.
  intros t a t' HP. unfold InitBuffer, first_record. munfold.
  destruct (chain t) eqn:E; [by unfold chain_len in HP; rewrite E in HP|].
  cbn. by intros [= _ <-].
Qed.

Lemma preserves_len_exec n o : preserves (chain_len n) (exec E2END o).
Proof.
  pose proof (chain_len_frame n) as HF.
  pose proof (chain_len_counter n) as HC.
  destruct o; cbn [exec]; pres.
  - apply preserves_len_InitBuffer.
  - by apply preserves_LoadStorage.
Qed.

Lemma preserves_len_run n os : preserves (chain_len n) (run E2END os).
Proof.
  induction os as [|o os IH]; cbn [run]; pres. apply preserves_len_exec.
Qed.

(** ** [InitBuffer] *)

Lemma bind_Ok_inv {A B} (m : M X A) (k : A → M X B) t b t' :
  bind m k t = Ok b t' → ∃ a t1, m t = Ok a t1 ∧ k a t1 = Ok b t'.
Proof.
  unfold bind. destruct (m t) as [a t1| |]; [|done..]. intros Hk. by exists a, t1.
Qed.

Lemma InitBuffer_loop_length heap : ∀ (it k : Z) t r t',
  1 <= k <= 32767 → 0 <= it < k →
  InitBuffer_loop heap it k t = Ok r t' →
  current_record t' = None
  ∨ (fst r = k
     ∧ Z.of_nat (length (chain t')) = Z.of_nat (length (chain t)) + (k - it)).
Proof.
  induction heap as [|h heap IH]; intros it k t r t' Hk Hit; cbn [InitBuffer_loop];
    munfold.
  - intros [= _ <-]. by left.
  - rewrite (wrap_uint_small (it + 1)), (wrap_uint_small k) by lia.
    destruct (it + 1 <? k) eqn:Hlt.
    + intros Hloop. apply IH in Hloop; [|lia|lia].
      destruct Hloop as [Hnull|[Hr Hlen]]; [by left|right].
      split; [done|]. rewrite Hlen. cbn. rewrite length_app. cbn. lia.
    + intros [= <- <-]. right. cbn. rewrite length_app. cbn. lia.
Qed.

Lemma InitBuffer_length (k : Z) heap t t' :
  1 <= k <= 32767 →
  InitBuffer k heap t = Ok true t' →
  Z.of_nat (length (chain t')) = k + 1.
Proof.
  intros Hk. unfold InitBuffer.
  intros (f & t0 & [= <- <-] & Hrun)%bind_Ok_inv.
  destruct (non_null (first_record t)); [done|].
  destruct heap as [|h heap]; [done|].
  apply bind_Ok_inv in Hrun as (? & t1 & [= _ <-] & Hrun).
  apply bind_Ok_inv in Hrun as (? & t2 & [= _ <-] & Hrun).
  apply bind_Ok_inv in Hrun as (r & t3 & Hloop & Hrun).
  apply InitBuffer_loop_length in Hloop; [|lia|lia].
  destruct (fst r <? wrap_uint k); [done|].
  apply bind_Ok_inv in Hrun as (? & t4 & Hnode & Hrun).
  apply bind_Ok_inv in Hrun as (? & t5 & [= _ <-] & Hrun).
  apply bind_Ok_inv in Hrun as (? & t6 & [= _ <-] & [= <-]).
  unfold cur_node in Hnode.
  destruct Hloop as [Hnull|[_ Hlen]]; [by rewrite Hnull in Hnode|].
  destruct (current_record t3); [|done]. destruct (chain t3 !! _); [|done].
  injection Hnode as _ <-. cbn in *. lia.
Qed.

(** ** The live counter *)

Implicit Types (o : op X) (os : list (op X)).
Implicit Types (r : result X) (rs : list (result X)).

Lemma counter_frame (c : Z) : frame (fun t => counter t = c).
Proof. by split. Qed.

Lemma preserves_counter_InitBuffer_loop c heap : ∀ it k,
  preserves (fun t => counter t = c) (InitBuffer_loop heap it k).
Proof.
  induction heap as [|h heap IH]; intros it k; cbn [InitBuffer_loop]; pres.
  all: by apply preserves_modify.
Qed.

Lemma preserves_counter_InitBuffer c k heap :
  preserves (fun t => counter t = c) (InitBuffer k heap).
Proof.
  pose proof (counter_frame c) as HF.
  unfold InitBuffer. pres.
  destruct heap as [|h heap]; pres.
  all: first [ by apply preserves_modify
             | apply preserves_counter_InitBuffer_loop ].
Qed.

Lemma Insert_counter t x b t' :
  Insert x t = Ok b t' →
  counter t' = if b then wrap_uint (counter t + 1) else counter t.
Proof.
  destruct (decide (chain t = [])) as [He|Hne].
  - by rewrite (Insert_null t x He).
  - rewrite (Insert_spec t x Hne). cbv zeta.
    case_decide; by intros [= <- <-].
Qed.

Lemma Delete_counter t b t' :
  Delete t = Ok b t' →
  counter t' = if b then wrap_uint (counter t - 1) else counter t.
Proof.
  unfold Delete. intros (c & ? & [= <- <-] & Hrun)%bind_Ok_inv.
  destruct (non_null (current_record t)); cbn in Hrun; [|by injection Hrun as <- <-].
  apply bind_Ok_inv in Hrun as (? & t1 & Hput & Hrun).
  apply bind_Ok_inv in Hrun as (? & t2 & [= _ <-] & [= <- <-]).
  cbn. f_equal. f_equal.
  exact (preserves_put_enabled (fun t0 => counter t0 = counter t) false
           (counter_frame (counter t)) t _ t1 eq_refl Hput).
Qed.

Lemma exec_counter o t r t' :
  cleans o = false → exec E2END o t = Ok r t' →
  counter t' = counter_step o r (counter t).
Proof.
  intros Hcl Hrun.
  pose proof (counter_frame (counter t)) as HF.
  set (P := fun t0 : XTable X => counter t0 = counter t) in *.
  assert (HP : P t) by done.
  destruct o; try discriminate Hcl; cbn [exec] in Hrun;
    apply bind_Ok_inv in Hrun as (b & t1 & Hop & [= <- <-]).
  - exact (preserves_counter_InitBuffer _ _ _ _ _ _ HP Hop).
  - apply Insert_counter in Hop. by destruct b.
  - exact (preserves_Select P _ _ _ HP Hop).
  - exact (preserves_Update P _ HF _ _ _ HP Hop).
  - apply Delete_counter in Hop. by destruct b.
  - exact (preserves_Counter P _ _ _ HP Hop).
  - exact (preserves_Top P HF _ _ _ HP Hop).
  - exact (preserves_Next P HF _ _ _ HP Hop).
  - exact (preserves_InitStorage P _ _ HF _ _ _ HP Hop).
  - exact (preserves_SaveStorage P HF _ _ _ HP Hop).
Qed.

Lemma inserts_ok_cons o os r rs :
  inserts_ok (o :: os) (r :: rs)
  = match o, r with OpInsert _, RBool true => 1 | _, _ => 0 end
    + inserts_ok os rs.
Proof. destruct o, r as [[]| | |]; cbn [inserts_ok]; lia. Qed.

Lemma deletes_ok_cons o os r rs :
  deletes_ok (o :: os) (r :: rs)
  = match o, r with OpDelete, RBool true => 1 | _, _ => 0 end
    + deletes_ok os rs.
Proof. destruct o, r as [[]| | |]; cbn [deletes_ok]; lia. Qed.

Lemma wrap_uint_idemp (z : Z) : wrap_uint (wrap_uint z) = wrap_uint z.
Proof. unfold wrap_uint. apply Z.mod_mod. lia. Qed.

Lemma run_counter os : ∀ t rs t',
  forallb (fun o => negb (cleans o)) os = true →
  run E2END os t = Ok rs t' →
  wrap_uint (counter t')
  = wrap_uint (counter t + inserts_ok os rs - deletes_ok os rs)
  ∧ (0 <= counter t < 65536 → 0 <= counter t' < 65536).
Proof.
  induction os as [|o os IH]; intros t rs t' Hcl; cbn [run].
  - intros [= <- <-]. cbn. split; [f_equal; lia|done].
  - cbn in Hcl. apply andb_prop in Hcl as [Ho Hos].
    apply negb_true_iff in Ho.
    intros (r & t1 & Hop & Hrun)%bind_Ok_inv.
    apply bind_Ok_inv in Hrun as (rs' & t2 & Hrun & [= <- <-]).
    apply (exec_counter _ _ _ _ Ho) in Hop.
    destruct (IH _ _ _ Hos Hrun) as [IH1 IH2].
    rewrite IH1, Hop, inserts_ok_cons, deletes_ok_cons.
    split.
    + rewrite <- Z.add_sub_assoc. unfold counter_step.
      destruct o, r as [[]| | |]; rewrite ?wrap_uint_add_l; f_equal; lia.
    + intros Hc. apply IH2. rewrite Hop. unfold counter_step.
      destruct o, r as [[]| | |]; try done; apply wrap_uint_range.
Qed.

(** ** The walk over the status buffer *)

Lemma IncCurrentLocation_spec t p :
  IncCurrentLocation p t
  = Ok (inc_location (eeprom_header_begin t) (eeprom_max_items t) p) t.
Proof. reflexivity. Qed.

Lemma GetLocationFromStatus_spec t p :
  GetLocationFromStatus p t
  = Ok (location (eeprom_header_begin t) (eeprom_parameter_begin t) p) t.
Proof. reflexivity. Qed.

Lemma GetTopLocation_loop_walk fuel : ∀ t c n,
  GetTopLocation_loop fuel c n t
  = match walk fuel (eeprom t) (eeprom_header_begin t) (eeprom_max_items t) c n
    with
    | Some c' => Ok c' t
    | None => OutOfFuel
    end.
Proof.
  induction fuel as [|fuel IH]; intros t c n; [done|].
  cbn [GetTopLocation_loop walk]. munfold.
  destruct (_ =? _); [|done].
  rewrite IncCurrentLocation_spec. apply IH.
Qed.

(** The bytes read along the walk increase by one at each step and stay
    below 256: the walk ends within 256 steps. *)
Lemma walk_total fuel : ∀ m hb mx c n,
  256 - eeprom_read m c <= Z.of_nat fuel →
  is_Some (walk fuel m hb mx c n).
Proof.
  induction fuel as [|fuel IH]; intros m hb mx c n Hf.
  - pose proof (eeprom_read_range m c). lia.
  - cbn [walk]. destruct (_ =? _) eqn:E; [|done].
    apply IH. apply Z.eqb_eq in E. lia.
Qed.

Lemma GetTopLocation_spec t : GetTopLocation t = Ok tt (located t).
Proof.
  unfold GetTopLocation, located, top_status. munfold.
  rewrite GetTopLocation_loop_walk.
  destruct (walk_total 256 (eeprom t) (eeprom_header_begin t)
              (eeprom_max_items t) (wrap_int (eeprom_header_begin t + 2))
              (wrap_int (wrap_int (eeprom_header_begin t + 2) + 1)))
    as [c Hc].
  { pose proof (eeprom_read_range (eeprom t)
                  (wrap_int (eeprom_header_begin t + 2))). lia. }
  rewrite Hc. done.
Qed.

Lemma CheckStorage_spec t :
  CheckStorage t
  = if bad_config (eeprom_max_items t) (eeprom_header_begin t)
    then Ok false t
    else if header_ok (eeprom t) (eeprom_header_begin t) (eeprom_max_items t)
         then Ok true (located t)
         else Ok false t.
Proof.
  unfold CheckStorage, bad_config. munfold.
  destruct (_ || _); [done|].
  destruct (header_ok _ _ _); [|done].
  by rewrite GetTopLocation_spec.
Qed.

Lemma located_idemp t : located (located t) = located t.
Proof. reflexivity. Qed.

Lemma CheckStorage_true t t' :
  CheckStorage t = Ok true t' →
  t' = located t
  ∧ bad_config (eeprom_max_items t) (eeprom_header_begin t) = false
  ∧ header_ok (eeprom t) (eeprom_header_begin t) (eeprom_max_items t) = true.
Proof.
  rewrite CheckStorage_spec.
  destruct (bad_config _ _); [done|].
  destruct (header_ok _ _ _); [|done]. by intros [= <-].
Qed.

(** ** [InitStorage] *)

Lemma InitStorage_spec t (s n : Z) :
  InitStorage E2END s n t
  = if bad_config n s then Ok false (set_eeprom_max_items (-1) t)
    else if wrap_int (wrap_int (n * sizeof_XItem + n + 4 + s) - 1) >? E2END
         then Ok false (attach s n t)
         else CheckStorage
                (if header_ok (eeprom t) s n then attach s n t
                 else set_eeprom (format (eeprom t) s n) (attach s n t)).
Proof.
  unfold InitStorage, bad_config, NextFreeAddressStorage. munfold.
  destruct (_ || _) eqn:Hbad; [reflexivity|]. cbn.
  apply orb_false_elim in Hbad as [Hbad _].
  apply orb_false_elim in Hbad as [Hn _].
  replace (n <? 0) with false by lia.
  destruct (_ >? E2END); [reflexivity|].
  destruct (header_ok _ _ _); reflexivity.
Qed.

Lemma attach_fields t (s n : Z) :
  eeprom_max_items (attach s n t) = n
  ∧ eeprom_header_begin (attach s n t) = s
  ∧ eeprom_parameter_begin (attach s n t) = wrap_int (s + n + 4)
  ∧ eeprom (attach s n t) = eeprom t.
Proof. repeat split. Qed.

Lemma located_fields t :
  eeprom_max_items (located t) = eeprom_max_items t
  ∧ eeprom_header_begin (located t) = eeprom_header_begin t
  ∧ eeprom_parameter_begin (located t) = eeprom_parameter_begin t
  ∧ eeprom (located t) = eeprom t
  ∧ chain (located t) = chain t
  ∧ current_record (located t) = current_record t
  ∧ counter (located t) = counter t
  ∧ xitem (located t) = xitem t.
Proof. repeat split. Qed.

Lemma located_attach_again t (s n : Z) :
  located (attach s n (located (attach s n t))) = located (attach s n t).
Proof. reflexivity. Qed.

(** A second call with the same arguments finds the format in place. *)
Lemma InitStorage_again t (s n : Z) t1 :
  InitStorage E2END s n t = Ok true t1 →
  InitStorage E2END s n t1 = Ok true t1 ∧ CheckStorage t1 = Ok true t1.
Proof.
  rewrite InitStorage_spec.
  destruct (bad_config n s) eqn:Hbad; [discriminate|].
  destruct (_ >? E2END) eqn:Hend; [discriminate|].
  intros (-> & _ & Hfmt)%CheckStorage_true.
  set (t0 := if header_ok (eeprom t) s n then attach s n t
             else set_eeprom (format (eeprom t) s n) (attach s n t)) in *.
  assert (Hf : eeprom_max_items t0 = n ∧ eeprom_header_begin t0 = s
               ∧ eeprom_parameter_begin t0 = wrap_int (s + n + 4)).
  { unfold t0. by destruct (header_ok (eeprom t) s n). }
  destruct Hf as (Hmx & Hhb & Hpb). rewrite Hmx, Hhb in Hfmt.
  assert (Hloc : located (attach s n (located t0)) = located t0).
  { unfold t0. destruct (header_ok (eeprom t) s n); reflexivity. }
  split.
  - rewrite InitStorage_spec, Hbad, Hend.
    change (eeprom (located t0)) with (eeprom t0). rewrite Hfmt.
    rewrite CheckStorage_spec.
    change (eeprom_max_items (attach s n (located t0))) with n.
    change (eeprom_header_begin (attach s n (located t0))) with s.
    change (eeprom (attach s n (located t0))) with (eeprom t0).
    by rewrite Hbad, Hfmt, Hloc.
  - rewrite CheckStorage_spec.
    change (eeprom_max_items (located t0)) with (eeprom_max_items t0).
    change (eeprom_header_begin (located t0)) with (eeprom_header_begin t0).
    change (eeprom (located t0)) with (eeprom t0).
    by rewrite Hmx, Hhb, Hbad, Hfmt.
Qed.

(** ** The byte store *)

Lemma eeprom_write_bytes_out bs : ∀ (m : Z → Z) (a a' : Z),
  a' < a ∨ a + Z.of_nat (length bs) <= a' →
  eeprom_write_bytes m a bs a' = m a'.
Proof.
  induction bs as [|b bs IH]; intros m a a' Ha; cbn [eeprom_write_bytes];
    [done|].
  cbn [length] in Ha. rewrite IH by lia.
  unfold eeprom_write. destruct (Z.eqb_spec a' a); [lia|done].
Qed.

Lemma eeprom_write_bytes_in bs : ∀ (m : Z → Z) (a a' : Z),
  a <= a' < a + Z.of_nat (length bs) →
  eeprom_write_bytes m a bs a'
  = wrap_u8 (default 0 (bs !! Z.to_nat (a' - a))).
Proof.
  induction bs as [|b bs IH]; intros m a a' Ha; cbn [length] in Ha; [lia|].
  cbn [eeprom_write_bytes].
  destruct (decide (a' = a)) as [->|Hne].
  - rewrite eeprom_write_bytes_out by lia.
    unfold eeprom_write. rewrite Z.eqb_refl, Z.sub_diag. done.
  - rewrite IH by lia.
    replace (Z.to_nat (a' - a)) with (S (Z.to_nat (a' - (a + 1)))) by lia.
    done.
Qed.

Lemma eeprom_Fill_read (m : Z → Z) (a len v a' : Z) :
  eeprom_read (eeprom_Fill m a len v) a'
  = if (a <=? a') && (a' <? a + Z.max 0 len) then wrap_u8 v
    else eeprom_read m a'.
Proof.
  unfold eeprom_Fill, eeprom_read.
  destruct ((a <=? a') && (a' <? a + Z.max 0 len)) eqn:E.
  - apply andb_prop in E as [E1 E2].
    rewrite eeprom_write_bytes_in by (rewrite length_replicate; lia).
    rewrite lookup_replicate_2 by lia. cbn.
    unfold wrap_u8. apply Z.mod_mod. lia.
  - rewrite eeprom_write_bytes_out; [done|]. rewrite length_replicate.
    apply andb_false_iff in E as [E|E]; lia.
Qed.

Lemma eeprom_read_write (m : Z → Z) (a v a' : Z) :
  eeprom_read (eeprom_write m a v) a'
  = if a' =? a then wrap_u8 v else eeprom_read m a'.
Proof.
  unfold eeprom_read, eeprom_write. destruct (a' =? a); [|done].
  unfold wrap_u8. apply Z.mod_mod. lia.
Qed.

(** The store right after a reformat, read cell by cell. *)
Lemma format_read (m : Z → Z) (s n a : Z) :
  1 <= n <= 255 → 0 <= s →
  s + n * sizeof_XItem + n + 4 <= 32768 →
  eeprom_read (format m s n) a
  = if a =? s + 1 then n
    else if a =? s + n + 2 then EMK
    else if a =? s then BMK
    else if (s <=? a) && (a <? s + (n * sizeof_XItem + n + 4)) then 0
    else eeprom_read m a.
Proof.
  intros Hn Hs Hfit.
  assert (Hsz : 1 <= sizeof_XItem) by (unfold sizeof_XItem; lia).
  unfold format. rewrite !eeprom_read_write, eeprom_Fill_read.
  rewrite (wrap_int_small (s + 1)), (wrap_int_small (s + n + 2)) by nia.
  rewrite (wrap_uint_small (n * sizeof_XItem + n + 4)) by nia.
  rewrite Z.max_r by nia.
  rewrite (wrap_u8_small n) by lia.
  unfold BMK, EMK. rewrite !wrap_u8_small by lia. done.
Qed.

(** ** Where the walk ends *)

(** A first status byte of 255 ends the walk at once: no byte read from the
    store equals 256. *)
Lemma top_status_255 (m : Z → Z) (hb mx : Z) :
  eeprom_read m (wrap_int (hb + 2)) = 255 →
  top_status m hb mx = wrap_int (hb + 2).
Proof.
  intros Hv. unfold top_status.
  change 256%nat with (S 255). cbn [walk]. rewrite Hv.
  pose proof (eeprom_read_range m (wrap_int (wrap_int (hb + 2) + 1))).
  destruct (Z.eqb_spec (eeprom_read m (wrap_int (wrap_int (hb + 2) + 1)))
              (255 + 1)); [lia|done].
Qed.

(** On a store whose second status cell does not continue the first, the
    walk stays on the first status cell. *)
Lemma top_status_first (m : Z → Z) (hb mx : Z) :
  eeprom_read m (wrap_int (wrap_int (hb + 2) + 1))
  ≠ eeprom_read m (wrap_int (hb + 2)) + 1 →
  top_status m hb mx = wrap_int (hb + 2).
Proof.
  intros Hv. unfold top_status.
  change 256%nat with (S 255). cbn [walk].
  by destruct (Z.eqb_spec (eeprom_read m (wrap_int (wrap_int (hb + 2) + 1)))
                 (eeprom_read m (wrap_int (hb + 2)) + 1)).
Qed.

Implicit Types (nodes : list (XItem X)) (last : XItem X).

(** Decide the integer tests of the goal that arithmetic settles. *)
Ltac ztests :=
  repeat match goal with
  | |- context [?a =? ?b] =>
      first [ replace (a =? b) with true by nia
            | replace (a =? b) with false by nia ]
  | |- context [?a <=? ?b] =>
      first [ replace (a <=? b) with true by nia
            | replace (a <=? b) with false by nia ]
  | |- context [?a <? ?b] =>
      first [ replace (a <? b) with true by nia
            | replace (a <? b) with false by nia ]
  end; cbn [andb orb negb].

Lemma bad_config_false (n s : Z) :
  1 <= n <= 255 → 0 <= s → bad_config n s = false.
Proof.
  intros Hn Hs. unfold bad_config. rewrite Z.gtb_ltb.
  destruct (Z.leb_spec n 0), (Z.ltb_spec 255 n), (Z.ltb_spec s 0);
    try lia; done.
Qed.

Lemma find_enabled_head l : ∀ i,
  find_enabled l i = head (enabled_indices l i).
Proof.
  induction l as [|n l IH]; intros i; cbn; [done|].
  destruct (enabled n); [done|apply IH].
Qed.

Lemma scan_to_cons (n : XItem X) l i :
  l ≠ [] → scan_to (n :: l) i = if enabled n then scan_to l (S i) else i.
Proof. by destruct l. Qed.

Lemma scan_to_full nodes last : ∀ i,
  Forall (fun n => enabled n = true) nodes →
  scan_to (nodes ++ [last]) i = (i + length nodes)%nat.
Proof.
  induction nodes as [|n nodes IH]; intros i Hall; cbn [app length]; [cbn; lia|].
  apply Forall_cons in Hall as [Hn Hall].
  rewrite scan_to_cons by (by destruct nodes).
  rewrite Hn, IH by done. lia.
Qed.

(** * The round trip through the store *)

(** ** Addresses of a region *)

Lemma sizeof_XItem_pos : 1 <= sizeof_XItem.
Proof. unfold sizeof_XItem. lia. Qed.

Lemma mod_shift (mx k d : Z) :
  0 <= k < mx → 0 <= d < mx →
  (k + d) mod mx = if k + d <? mx then k + d else k + d - mx.
Proof.
  intros Hk Hd. destruct (Z.ltb_spec (k + d) mx).
  - apply Z.mod_small. lia.
  - symmetry. apply (Z.mod_unique_pos _ _ 1); lia.
Qed.

Lemma inc_location_slot (hb mx k : Z) :
  region_ok hb mx → 0 <= k < mx →
  inc_location hb mx (hb + 2 + k) = hb + 2 + (k + 1) mod mx.
Proof.
  intros (Hmx & Hhb & Hfit) Hk.
  pose proof sizeof_XItem_pos as Hsz.
  assert (Hprod : mx <= mx * sizeof_XItem) by nia.
  unfold inc_location. rewrite !wrap_int_small by lia.
  destruct (decide (mx = 1)) as [->|Hne].
  - replace k with 0 by lia. rewrite Z.mod_1_r.
    destruct (Z.ltb_spec (hb + 2 + 0 + 1 - 2) (hb + 1)); lia.
  - rewrite (mod_shift mx k 1) by lia.
    destruct (Z.ltb_spec (hb + 2 + k + 1 - 2) (hb + mx)),
      (Z.ltb_spec (k + 1) mx); lia.
Qed.








(** ** The records in the store *)

Section Records.

Context `{!PayloadLaws X}.

Variables hb mx : Z.
Hypothesis Hregion : region_ok hb mx.

#[local] Abbreviation slot := (data_slot hb mx).





Lemma slot_disjoint (k1 k2 b1 b2 : Z) :
  k1 ≠ k2 → 0 <= b1 < sizeof_XItem → 0 <= b2 < sizeof_XItem →
  slot k1 + b1 ≠ slot k2 + b2.
Proof. intros Hne Hb1 Hb2. unfold data_slot. nia. Qed.



End Records.

(** ** The loops of [SaveStorage] and [LoadStorage] *)

#[local] Abbreviation is_live := (fun n : XItem X => enabled n = true).


Lemma find_enabled_Some l : ∀ i j,
  find_enabled l i = Some j →
  ∃ n, l !! (j - i)%nat = Some n ∧ enabled n = true
       ∧ filter is_live l = filter is_live (drop (j - i) l).
Proof.
  induction l as [|n l IH]; intros i j; cbn [find_enabled]; [done|].
  destruct (enabled n) eqn:En.
  - intros [= <-]. replace (i - i)%nat with 0%nat by lia. by exists n.
  - intros Hj. pose proof (find_enabled_ge _ _ _ Hj) as Hge.
    destruct (IH _ _ Hj) as (n' & Hn' & En' & Hf).
    replace (j - i)%nat with (S (j - S i)) by lia.
    exists n'. split; [done|]. split; [done|].
    rewrite filter_cons_False by (by rewrite En). done.
Qed.



Lemma scan_to_stop (done rest : list (XItem X)) (r0 : XItem X) : ∀ i,
  Forall is_live done → enabled r0 = false → rest ≠ [] →
  scan_to (done ++ r0 :: rest) i = (i + length done)%nat.
Proof.
  induction done as [|n done IH]; intros i Hall Hr0 Hrest; cbn [app length].
  - rewrite scan_to_cons by done. rewrite Hr0. lia.
  - apply Forall_cons in Hall as [Hn Hall].
    rewrite scan_to_cons by (by destruct done).
    rewrite Hn, IH by done. lia.
Qed.


(** ** [SaveStorage], [Clean], [LoadStorage] in sequence *)


Lemma PutTopLocation_spec t :
  PutTopLocation t
  = let ts' := inc_location (eeprom_header_begin t) (eeprom_max_items t)
                 (top_status_ptr t) in
    Ok tt (set_top_parameter_ptr
             (location (eeprom_header_begin t) (eeprom_parameter_begin t) ts')
             (set_eeprom
                (eeprom_write (eeprom t) ts'
                   (eeprom_read (eeprom t) (top_status_ptr t) + 1))
                (set_top_status_ptr ts' t))).
Proof. reflexivity. Qed.





Lemma filter_none_live l :
  Forall (fun n => enabled n = false) l → filter is_live l = [].
Proof.
  induction 1 as [|n l Hn _ IH]; [done|].
  by rewrite filter_cons_False by (by rewrite Hn).
Qed.

Section ReadBack.

Context `{!PayloadLaws X}.

Variables hb mx : Z.
Hypothesis Hregion : region_ok hb mx.

#[local] Abbreviation slot := (data_slot hb mx).







End ReadBack.



(** * Saving and loading *)

(** ** Where the stamp of a save is found again *)

Lemma run_value (m : Z → Z) (hb i : Z) :
  (∀ j : Z, 0 <= j < i →
     eeprom_read m (hb + 2 + j + 1) = eeprom_read m (hb + 2 + j) + 1) →
  ∀ j : Z, 0 <= j <= i →
    eeprom_read m (hb + 2 + j) = eeprom_read m (hb + 2) + j.
Proof.
  intros Hrun j [Hj0 Hji]. revert Hji. pattern j.
  apply natlike_ind; [| |exact Hj0].
  - intros _. rewrite !Z.add_0_r. reflexivity.
  - intros x Hx IH Hxi.
    replace (hb + 2 + Z.succ x) with (hb + 2 + x + 1) by lia.
    rewrite Hrun, IH by lia. lia.
Qed.

(** The walk follows a run of stamps to the position where it ends. *)
Lemma walk_run (m : Z → Z) (hb mx : Z) :
  region_ok hb mx →
  ∀ (d : nat) (j : Z) (fuel : nat),
  0 <= j → j + Z.of_nat d < mx → (d < fuel)%nat →
  (∀ l : Z, j <= l < j + Z.of_nat d →
     eeprom_read m (hb + 2 + l + 1) = eeprom_read m (hb + 2 + l) + 1) →
  eeprom_read m (inc_location hb mx (hb + 2 + (j + Z.of_nat d)))
  ≠ eeprom_read m (hb + 2 + (j + Z.of_nat d)) + 1 →
  walk fuel m hb mx (hb + 2 + j) (inc_location hb mx (hb + 2 + j))
  = Some (hb + 2 + (j + Z.of_nat d)).
Proof.
  intros Hr. induction d as [|d IH]; intros j fuel Hj Hjd Hfuel Hrun Hstop;
    (destruct fuel as [|fuel]; [lia|]); cbn [walk].
  - rewrite Z.add_0_r in *.
    destruct (Z.eqb_spec (eeprom_read m (inc_location hb mx (hb + 2 + j)))
                (eeprom_read m (hb + 2 + j) + 1)); [done|reflexivity].
  - assert (Hinc : inc_location hb mx (hb + 2 + j) = hb + 2 + (j + 1)).
    { rewrite inc_location_slot by (done || lia).
      rewrite Z.mod_small by lia. reflexivity. }
    rewrite Hinc.
    replace (eeprom_read m (hb + 2 + (j + 1)))
      with (eeprom_read m (hb + 2 + j) + 1)
      by (rewrite <- (Hrun j) by lia; f_equal; lia).
    rewrite Z.eqb_refl.
    replace (j + Z.of_nat (S d)) with (j + 1 + Z.of_nat d) in * by lia.
    apply IH; [lia|lia|lia| |done].
    intros l Hl. apply Hrun. lia.
Qed.

Lemma top_status_run (m : Z → Z) (hb mx i : Z) :
  region_ok hb mx → 2 <= mx → 0 <= i < mx →
  (∀ j : Z, 0 <= j < i →
     eeprom_read m (hb + 2 + j + 1) = eeprom_read m (hb + 2 + j) + 1) →
  eeprom_read m (inc_location hb mx (hb + 2 + i))
  ≠ eeprom_read m (hb + 2 + i) + 1 →
  top_status m hb mx = hb + 2 + i.
Proof.
  intros Hr Hmx2 Hi Hrun Hstop. pose proof Hr as (Hmx & Hhb & Hfit).
  pose proof sizeof_XItem_pos as Hsz.
  assert (Hprod : mx <= mx * sizeof_XItem) by nia.
  unfold top_status.
  rewrite !(wrap_int_small (hb + 2)) by lia.
  rewrite (wrap_int_small (hb + 2 + 1)) by lia.
  assert (Hinc : inc_location hb mx (hb + 2 + 0) = hb + 2 + 1).
  { rewrite inc_location_slot by (done || lia).
    rewrite Z.mod_small by lia. reflexivity. }
  rewrite Z.add_0_r in Hinc. rewrite <- Hinc.
  pose proof (walk_run m hb mx Hr (Z.to_nat i) 0 256) as Hw.
  rewrite Z.add_0_l, Z2Nat.id, Z.add_0_r in Hw by lia.
  rewrite Hw; [reflexivity|lia|lia|lia| |done].
  intros l Hl. apply Hrun. lia.
Qed.

(** Where the stamps end at position [i], the walk ends there, and after
    the next position is stamped, on that one. *)
Lemma stamps_end_at_top (m : Z → Z) (hb mx i : Z) :
  region_ok hb mx → stamps_end_at m hb mx i →
  let T := top_status m hb mx in
  let T' := inc_location hb mx T in
  T = hb + 2 + i
  ∧ top_status (eeprom_write m T' (eeprom_read m T + 1)) hb mx = T'.
Proof.
  intros Hr (Hmx2 & Hi & Hrun & H255 & Hn1 & Hn2). cbv zeta.
  pose proof Hr as (Hmx & Hhb & Hfit).
  pose proof (run_value m hb i Hrun) as Hval.
  pose proof (eeprom_read_range m (hb + 2 + i)) as Hri.
  pose proof (eeprom_read_range m (hb + 2)) as Hr0.
  assert (Hinc : inc_location hb mx (hb + 2 + i)
                 = hb + 2 + (if i + 1 <? mx then i + 1 else 0)).
  { rewrite inc_location_slot, mod_shift by (done || lia).
    destruct (Z.ltb_spec (i + 1) mx); [done|]. f_equal. lia. }
  assert (HT : top_status m hb mx = hb + 2 + i).
  { apply top_status_run; [done|done|done|done|].
    rewrite Hinc. destruct (Z.ltb_spec (i + 1) mx) as [Hlt|Hge].
    - replace (hb + 2 + (i + 1)) with (hb + 2 + i + 1) by lia. by apply Hn1.
    - rewrite Z.add_0_r, (Hval i) by lia. lia. }
  split; [done|]. rewrite HT, Hinc.
  set (v := eeprom_read m (hb + 2 + i)) in *.
  destruct (Z.ltb_spec (i + 1) mx) as [Hlt|Hge].
  - (* the stamp goes to the position after [i] *)
    set (m' := eeprom_write m (hb + 2 + (i + 1)) (v + 1)).
    assert (Hsame : ∀ a, a ≠ hb + 2 + (i + 1) →
              eeprom_read m' a = eeprom_read m a).
    { intros a Ha. unfold m'. rewrite eeprom_read_write.
      by destruct (Z.eqb_spec a (hb + 2 + (i + 1))). }
    assert (Hnew : eeprom_read m' (hb + 2 + (i + 1)) = v + 1).
    { unfold m'. rewrite eeprom_read_write, Z.eqb_refl.
      apply wrap_u8_small. lia. }
    apply top_status_run; [done|done|lia| |].
    + intros j Hj. destruct (decide (j = i)) as [->|Hne].
      * replace (hb + 2 + i + 1) with (hb + 2 + (i + 1)) by lia.
        rewrite Hnew, Hsame by lia. reflexivity.
      * rewrite !Hsame by lia. apply Hrun. lia.
    + rewrite Hnew, inc_location_slot, mod_shift by (done || lia).
      destruct (Z.ltb_spec (i + 1 + 1) mx) as [Hlt2|Hge2].
      * rewrite Hsame by lia.
        replace (hb + 2 + (i + 1 + 1)) with (hb + 2 + i + 2) by lia.
        specialize (Hn2 ltac:(lia)). fold v in Hn2. lia.
      * replace (i + 1 + 1 - mx) with 0 by lia.
        rewrite Hsame by lia. rewrite Z.add_0_r.
        specialize (Hval i ltac:(lia)). fold v in Hval. lia.
  - (* the stamp goes back to the first position *)
    rewrite Z.add_0_r.
    set (m' := eeprom_write m (hb + 2) (v + 1)).
    assert (Hsame : ∀ a, a ≠ hb + 2 → eeprom_read m' a = eeprom_read m a).
    { intros a Ha. unfold m'. rewrite eeprom_read_write.
      by destruct (Z.eqb_spec a (hb + 2)). }
    assert (Hnew : eeprom_read m' (hb + 2) = v + 1).
    { unfold m'. rewrite eeprom_read_write, Z.eqb_refl.
      apply wrap_u8_small. lia. }
    transitivity (hb + 2 + 0); [|lia].
    apply top_status_run; [done|done|lia|intros; lia|].
    rewrite inc_location_slot, mod_shift by (done || lia).
    destruct (Z.ltb_spec (0 + 1) mx); [|lia].
    rewrite Z.add_0_r, Hnew, Hsame by lia.
    pose proof (Hrun 0 ltac:(lia)) as H1. rewrite Z.add_0_r in H1.
    replace (hb + 2 + (0 + 1)) with (hb + 2 + 1) by lia.
    specialize (Hval i ltac:(lia)). fold v in Hval. lia.
Qed.



(** The stamp of a save is found again. On a region whose stamps end at
    position [i], [GetTopLocation] ends on that position; and once
    [PutTopLocation] has stamped the position after it (the first one,
    after the last), [GetTopLocation] ends on the stamped position, whose
    data slot becomes the top. *)
Theorem PutTopLocation_GetTopLocation t (i : Z) :
  region_ok (eeprom_header_begin t) (eeprom_max_items t) →
  stamps_end_at (eeprom t) (eeprom_header_begin t) (eeprom_max_items t) i →
  ∃ t1 t2,
    GetTopLocation t = Ok tt t1
    ∧ top_status_ptr t1 = eeprom_header_begin t + 2 + i
    ∧ bind PutTopLocation (fun _ => GetTopLocation) t1 = Ok tt t2
    ∧ top_status_ptr t2
      = eeprom_header_begin t + 2 + (i + 1) mod eeprom_max_items t
    ∧ eeprom_read (eeprom t2) (top_status_ptr t2)
      = eeprom_read (eeprom t) (eeprom_header_begin t + 2 + i) + 1
    ∧ top_parameter_ptr t2
      = location (eeprom_header_begin t) (eeprom_parameter_begin t)
          (top_status_ptr t2).
Proof.
  intros Hr Hst.
  destruct (stamps_end_at_top _ _ _ _ Hr Hst) as [HT HT'].
  pose proof Hst as (Hmx2 & Hi & _ & H255 & _).
  pose proof (eeprom_read_range (eeprom t) (eeprom_header_begin t + 2 + i)).
  exists (located t). eexists. split; [apply GetTopLocation_spec|].
  split; [exact HT|].
  unfold bind. rewrite PutTopLocation_spec. cbv beta iota zeta.
  rewrite GetTopLocation_spec.
  split; [reflexivity|].
  cbn [located top_status_ptr top_parameter_ptr eeprom eeprom_header_begin
       eeprom_max_items eeprom_parameter_begin set_top_parameter_ptr
       set_top_status_ptr set_eeprom].
  rewrite HT'. rewrite HT, inc_location_slot by done.
  split; [reflexivity|]. split; [|reflexivity].
  rewrite eeprom_read_write, Z.eqb_refl. apply wrap_u8_small. lia.
Qed.








(** * The counter *)

(** What [Counter()] returns. After a [Clean], whatever calls follow (no
    further [Clean] or [LoadStorage] among them), it is the number of
    [Insert]s that returned true minus the number of [Delete]s that returned
    true, reduced modulo 2^16 as an [unsigned int] is; it is that difference
    itself when the difference lies in [0, 2^16). *)
Theorem Counter_counts t os rs t' :
  forallb (fun o => negb (cleans o)) os = true →
  run E2END (OpClean :: os) t = Ok (RVoid :: rs) t' →
  Counter t' = Ok (wrap_uint (inserts_ok os rs - deletes_ok os rs)) t'
  ∧ (0 <= inserts_ok os rs - deletes_ok os rs < 65536 →
     Counter t' = Ok (inserts_ok os rs - deletes_ok os rs) t').
Proof.
  intros Hcl Hrun. cbn [run exec] in Hrun.
  apply bind_Ok_inv in Hrun as (r & t1 & Hclean & Hrun).
  apply bind_Ok_inv in Hclean as (? & t0 & Hclean & [= <- <-]).
  rewrite Clean_spec in Hclean. injection Hclean as Ht0. subst t0.
  apply bind_Ok_inv in Hrun as (rs' & t2 & Hrun & [= <- <-]).
  destruct (run_counter os _ _ _ Hcl Hrun) as [Hmod Hrange].
  change (counter (cleaned t)) with 0 in Hmod, Hrange.
  specialize (Hrange ltac:(lia)).
  rewrite (wrap_uint_small (counter t2)) in Hmod by done.
  rewrite Z.add_0_l in Hmod.
  unfold Counter, gets. rewrite Hmod. split; [done|].
  intros Hd. by rewrite wrap_uint_small.
Qed.

(** * Further properties of the working-set table *)

(** [Insert] fills the first node that is disabled and not last: a slot
    freed by [Delete] is reused in place. The cursor ends on that node and
    the counter goes up by one; no other node changes. *)
Theorem Insert_first_free t x (done rest : list (XItem X)) (r0 : XItem X) :
  chain t = done ++ r0 :: rest →
  Forall is_live done → enabled r0 = false → rest ≠ [] →
  Insert x t
  = Ok true
      (set_counter (wrap_uint (counter t + 1))
         (set_chain (done ++ {| item := x; enabled := true |} :: rest)
            (set_current_record (Some (length done)) t))).
Proof.
  intros Hl Hdone Hr0 Hrest.
  rewrite Insert_spec by (rewrite Hl; by destruct done).
  cbv zeta. rewrite Hl, scan_to_stop by done.
  rewrite length_app. cbn [length Nat.add].
  assert (0 < length rest)%nat by (destruct rest; cbn; [done|lia]).
  case_decide; [|lia].
  do 3 f_equal.
  rewrite <- (Nat.add_0_r (length done)) at 1. by rewrite insert_app_r.
Qed.

(** After a successful [Insert(x)], [Select()] returns [x]. *)
Theorem Insert_then_Select t x t' :
  Insert x t = Ok true t' → Select t' = Ok (Some x) t'.
Proof.
  destruct (decide (chain t = [])) as [He|Hne].
  { by rewrite (Insert_null t x He). }
  rewrite (Insert_spec t x Hne). cbv zeta.
  pose proof (scan_to_bounds (chain t) 0 Hne) as Hk.
  case_decide; [|done]. intros [= <-].
  unfold Select, bind.
  erewrite cur_node_at;
    [| reflexivity | cbn; apply list_lookup_insert_eq; lia ].
  reflexivity.
Qed.

Lemma Exists_first_dead (nodes : list (XItem X)) :
  Exists (fun n => enabled n = false) nodes →
  ∃ (done : list (XItem X)) (r0 : XItem X) (rest : list (XItem X)),
    nodes = done ++ r0 :: rest ∧ Forall is_live done ∧ enabled r0 = false.
Proof.
  induction nodes as [|n nodes IH]; intros Hex; [by apply Exists_nil in Hex|].
  destruct (enabled n) eqn:En.
  - apply Exists_cons in Hex as [Hn|Hex]; [congruence|].
    destruct (IH Hex) as (done & r0 & rest & -> & Hdone & Hr0).
    exists (n :: done), r0, rest. split; [done|]. split; [|done].
    by apply Forall_cons.
  - exists [], n, nodes. by repeat split.
Qed.

(** On an initialised table [Insert] succeeds exactly when some node other
    than the last is disabled. *)
Theorem Insert_succeeds_iff t x nodes last :
  chain t = nodes ++ [last] →
  returned (Insert x t) = Some true
  ↔ Exists (fun n => enabled n = false) nodes.
Proof.
  intros Hl. split.
  - intros Hret. destruct (decide (Forall is_live nodes)) as [Hall|Hnot].
    + rewrite Insert_spec in Hret by (rewrite Hl; by destruct nodes).
      cbv zeta in Hret. rewrite Hl, scan_to_full in Hret by done.
      rewrite length_app in Hret. cbn [length] in Hret.
      case_decide; [lia|done].
    + apply not_Forall_Exists in Hnot; [|apply _].
      eapply Exists_impl; [exact Hnot|]. intros n Hn. cbn in Hn.
      by destruct (enabled n).
  - intros (done & r0 & rest & -> & Hdone & Hr0)%Exists_first_dead.
    rewrite <- app_assoc in Hl. cbn [app] in Hl.
    rewrite (Insert_first_free t x done (rest ++ [last]) r0);
      [done|done|done|done|by destruct rest].
Qed.

(** [Update] writes the payload of the node under the cursor and leaves its
    flag as it is: [Select()] then returns the new payload if the node is
    enabled and [NULL] if it is not; the counter does not move. With a null
    cursor [Update] returns false and changes nothing. *)
Theorem Update_then_Select t x :
  (current_record t = None → Update x t = Ok false t)
  ∧ (∀ i (n : XItem X), current_record t = Some i → chain t !! i = Some n →
     ∃ t', Update x t = Ok true t'
       ∧ chain t' = <[i := {| item := x; enabled := enabled n |}]> (chain t)
       ∧ counter t' = counter t
       ∧ Select t' = Ok (if enabled n then Some x else None) t').
Proof.
  split; [apply Update_null|].
  intros i n Hc Hn. rewrite (Update_spec t i n x Hc Hn).
  eexists. split; [reflexivity|]. split; [done|]. split; [done|].
  unfold Select, bind.
  erewrite cur_node_at;
    [| exact Hc
     | cbn; apply list_lookup_insert_eq; by eapply lookup_lt_Some ].
  cbn. by destruct (enabled n).
Qed.

(** [Clean] disables every node and keeps every payload, resets the
    counter to 0 and the cursor to null; an enumeration right after it
    visits nothing. *)
Theorem Clean_empties t :
  ∃ t', Clean t = Ok tt t'
    ∧ chain t' = disable <$> chain t
    ∧ counter t' = 0 ∧ current_record t' = None
    ∧ live t' = []
    ∧ returned (enumerate t') = Some []
    ∧ returned (Top t') = Some false.
Proof.
  exists (cleaned t). rewrite Clean_spec. split; [done|].
  assert (Hdead : Forall (fun n : XItem X => enabled n = false)
                    (disable <$> chain t))
    by by apply Forall_fmap, Forall_true.
  assert (Hlive : live (cleaned t) = [])
    by by apply filter_none_live.
  assert (Hfind : chain t ≠ [] → find_enabled (disable <$> chain t) 0 = None).
  { intros _. destruct (find_enabled (disable <$> chain t) 0) as [j|] eqn:Ej;
      [|done].
    destruct (find_enabled_Some _ _ _ Ej) as (n & Hn & En & _).
    rewrite Forall_forall in Hdead.
    specialize (Hdead n (list_elem_of_lookup_2 _ _ _ Hn)). congruence. }
  assert (HTop : returned (Top (cleaned t)) = Some false).
  { destruct (decide (chain t = [])) as [He|Hne].
    - rewrite Top_empty; [done|]. cbn. by rewrite He.
    - rewrite Top_spec by (cbn; by destruct (chain t)).
      cbv zeta. cbn [chain cleaned set_counter set_current_record set_chain].
      by rewrite (Hfind Hne). }
  repeat split; try done.
  unfold enumerate, bind. destruct (Top (cleaned t)) as [b t1| |]; [|done..].
  injection HTop as ->. done.
Qed.





(** ** [InitBuffer] and the allocator *)

(** The loop of [InitBuffer] with [it] nodes chained so far: it takes
    [k - it] more objects if the heap has them, and otherwise empties the
    heap and stops with a null cursor. *)
Lemma InitBuffer_loop_spec heap : ∀ (it k : Z) t,
  1 <= k <= 32767 → 0 <= it < k →
  InitBuffer_loop heap it k t
  = if decide (Z.to_nat (k - it) ≤ length heap)%nat
    then Ok (k, drop (Z.to_nat (k - it)) heap)
           (set_current_record
              (Some (length (chain t) + Z.to_nat (k - it) - 1)%nat)
              (set_chain (chain t ++ take (Z.to_nat (k - it)) heap) t))
    else Ok (it + Z.of_nat (length heap) + 1, [])
           (set_current_record None (set_chain (chain t ++ heap) t)).
Proof.
  induction heap as [|h heap IH]; intros it k t Hk Hit;
    cbn [InitBuffer_loop]; munfold.
  - rewrite (wrap_uint_small (it + 1)) by lia.
    case_decide as Hd; [cbn in Hd; lia|].
    sunfold. rewrite app_nil_r. do 2 f_equal; lia.
  - rewrite (wrap_uint_small (it + 1)), (wrap_uint_small k) by lia.
    destruct (Z.ltb_spec (it + 1) k) as [Hlt|Hge].
    + rewrite IH by lia. cbn [length].
      replace (Z.to_nat (k - it)) with (S (Z.to_nat (k - (it + 1)))) by lia.
      repeat case_decide; try lia.
      * sunfold. rewrite length_app. cbn [length].
        rewrite <- app_assoc. cbn [app]. do 3 f_equal; lia.
      * sunfold. rewrite <- app_assoc. cbn [app]. do 2 f_equal; lia.
    + replace (Z.to_nat (k - it)) with 1%nat by lia. cbn [length].
      case_decide; [|lia]. sunfold. rewrite take_0, drop_0.
      do 3 f_equal; lia.
Qed.

(** [InitBuffer(k)] by the number of objects the allocator can hand out:
    with more than [k + 1] it succeeds, chains [k + 1] nodes with whatever
    their fields hold, and leaves the cursor on the last one; with fewer than
    [k] it returns false, leaving the nodes it got chained; with exactly [k]
    it stores through the null pointer the failed allocation returned. On a
    table that already has a chain it returns false and changes nothing. *)
Theorem InitBuffer_by_heap (k : Z) heap t :
  1 <= k <= 32767 →
  (chain t ≠ [] → InitBuffer k heap t = Ok false t)
  ∧ (chain t = [] →
     ((Z.to_nat k + 1 ≤ length heap)%nat →
        InitBuffer k heap t
        = Ok true
            (set_xitem (head (drop (S (Z.to_nat k)) heap))
               (set_buffer_max_items k
                  (set_current_record (Some (Z.to_nat k))
                     (set_chain (take (S (Z.to_nat k)) heap) t)))))
     ∧ (length heap = Z.to_nat k → InitBuffer k heap t = Fault)
     ∧ ((0 < length heap < Z.to_nat k)%nat →
        InitBuffer k heap t
        = Ok false (set_current_record None (set_chain heap t)))
     ∧ (heap = [] → InitBuffer k heap t = Ok false t)).
Proof.
  intros Hk. split.
  { intros Hne. unfold InitBuffer, bind, gets.
    by rewrite (first_record_cons t Hne). }
  intros He.
  assert (Hfirst : first_record t = None) by (unfold first_record; by rewrite He).
  destruct heap as [|h heap].
  { unfold InitBuffer, bind, gets. rewrite Hfirst. cbn [non_null length].
    repeat split; intros; try lia; reflexivity. }
  assert (Hrun : InitBuffer k (h :: heap) t
            = bind (InitBuffer_loop heap 0 k)
                (fun res : Z * list (XItem X) =>
                if fst res <? wrap_uint k then ret false else
                bind cur_node (fun _ =>
                bind (modify (set_buffer_max_items (wrap_uint k))) (fun _ =>
                bind (modify (set_xitem (head (snd res)))) (fun _ =>
                ret true))))
                (set_current_record (Some 0%nat) (set_chain [h] t))).
  { unfold InitBuffer, bind at 1, gets at 1. rewrite Hfirst. reflexivity. }
  unfold bind at 1 in Hrun. rewrite InitBuffer_loop_spec in Hrun by lia.
  rewrite Z.sub_0_r, (wrap_uint_small k) in Hrun by lia.
  cbn [length chain set_chain set_current_record] in Hrun.
  rewrite Hrun. clear Hrun. cbn [length].
  repeat split.
  - intros Hlen. case_decide; [|lia]. cbn [fst snd].
    replace (k <? k) with false by lia.
    munfold. unfold cur_node.
    cbn [current_record chain set_current_record set_chain].
    rewrite lookup_app_r by (cbn; lia).
    destruct (lookup_lt_is_Some_2 (take (Z.to_nat k) heap)
                (1 + Z.to_nat k - 1 - length [h])) as [n Hn].
    { rewrite length_take. cbn. lia. }
    rewrite Hn. sunfold. do 3 f_equal; lia.
  - intros Hlen. case_decide; [lia|]. cbn [fst snd].
    replace (0 + Z.of_nat (length heap) + 1 <? k) with false by lia.
    munfold. unfold cur_node. reflexivity.
  - intros Hlen. case_decide; [lia|]. cbn [fst snd].
    replace (0 + Z.of_nat (length heap) + 1 <? k) with true by lia.
    munfold. sunfold. reflexivity.
  - intros [=].
Qed.


(** * The claims *)

(** C2. The walk of [GetTopLocation] compares [int]s: from a status byte
    of 255 it never steps on, whatever the next byte holds (a successor 0
    included); the position where it stops becomes [top_status_ptr] and its
    data slot [top_parameter_ptr]. *)
Theorem GetTopLocation_stops_at_255 t :
  eeprom_read (eeprom t) (wrap_int (eeprom_header_begin t + 2)) = 255 →
  ∃ t', GetTopLocation t = Ok tt t'
        ∧ top_status_ptr t' = wrap_int (eeprom_header_begin t + 2)
        ∧ GetLocationFromStatus (top_status_ptr t') t'
          = Ok (top_parameter_ptr t') t'.
Proof.
  intros Hv. exists (located t). rewrite GetTopLocation_spec.
  split; [reflexivity|]. split.
  - exact (top_status_255 _ _ _ Hv).
  - apply GetLocationFromStatus_spec.
Qed.

(** C3 (amended). A successful [InitStorage(start, capacity)] on an
    unformatted region lying within the device leaves: 0x42 at offset 0,
    the capacity at offset 1, the status bytes (all zero) at offsets 2 to
    capacity+1, 0x45 at offset capacity+2, a zero spare byte at offset
    capacity+3, and the zero-filled data records from offset capacity+4 on,
    the record of status position [i] at capacity+4+i*sizeof(XItem). *)
Theorem InitStorage_layout t (s n : Z) :
  1 <= n <= 255 → 0 <= s →
  s + n * sizeof_XItem + n + 3 <= E2END → E2END < 32767 →
  header_ok (eeprom t) s n = false →
  ∃ t', InitStorage E2END s n t = Ok true t'
    ∧ eeprom_read (eeprom t') s = BMK
    ∧ eeprom_read (eeprom t') (s + 1) = n
    ∧ (∀ k : Z, 0 <= k < n → eeprom_read (eeprom t') (s + 2 + k) = 0)
    ∧ eeprom_read (eeprom t') (s + n + 2) = EMK
    ∧ eeprom_read (eeprom t') (s + n + 3) = 0
    ∧ (∀ k : Z, 0 <= k < n →
         GetLocationFromStatus (s + 2 + k) t'
         = Ok (s + n + 4 + k * sizeof_XItem) t')
    ∧ (∀ a : Z, s + n + 4 <= a < s + n + 4 + n * sizeof_XItem →
         eeprom_read (eeprom t') a = 0)
    ∧ top_status_ptr t' = s + 2
    ∧ top_parameter_ptr t' = s + n + 4.
Proof.
  intros Hn Hs Hfit Hend Hfresh.
  assert (Hsz : 1 <= sizeof_XItem) by (unfold sizeof_XItem; lia).
  assert (Hprod : n <= n * sizeof_XItem) by nia.
  set (t0 := set_eeprom (format (eeprom t) s n) (attach s n t)).
  assert (Hrd : ∀ a, eeprom_read (eeprom t0) a
    = if a =? s + 1 then n
      else if a =? s + n + 2 then EMK
      else if a =? s then BMK
      else if (s <=? a) && (a <? s + (n * sizeof_XItem + n + 4)) then 0
      else eeprom_read (eeprom t) a).
  { intros a. apply format_read; lia. }
  assert (Hok : header_ok (eeprom t0) s n = true).
  { unfold header_ok.
    rewrite (wrap_int_small (s + n + 2)), (wrap_int_small (s + 1)) by lia.
    rewrite !Hrd.
    ztests; done. }
  assert (Htop : top_status (eeprom t0) s n = s + 2).
  { rewrite top_status_first; rewrite !(wrap_int_small (s + 2)) by lia;
      [done|].
    rewrite (wrap_int_small (s + 2 + 1)) by lia. rewrite !Hrd.
    unfold EMK. ztests. destruct (_ =? _); lia. }
  exists (located t0). split.
  { rewrite InitStorage_spec.
    rewrite bad_config_false by done.
    rewrite (wrap_int_small (n * sizeof_XItem + n + 4 + s)) by lia.
    rewrite wrap_int_small by lia.
    rewrite Z.gtb_ltb. replace (E2END <? _) with false by lia.
    rewrite Hfresh. fold t0. rewrite CheckStorage_spec.
    change (eeprom_max_items t0) with n.
    change (eeprom_header_begin t0) with s.
    rewrite bad_config_false by done.
    by rewrite Hok. }
  change (eeprom (located t0)) with (eeprom t0).
  change (top_status_ptr (located t0)) with (top_status (eeprom t0) s n).
  change (top_parameter_ptr (located t0))
    with (location s (wrap_int (s + n + 4)) (top_status (eeprom t0) s n)).
  rewrite Htop. unfold location.
  rewrite (wrap_int_small (s + n + 4)) by lia.
  repeat split.
  - rewrite Hrd.
    ztests; done.
  - rewrite Hrd. ztests; done.
  - intros i Hi. rewrite Hrd.
    ztests; done.
  - rewrite Hrd. ztests; done.
  - rewrite Hrd.
    ztests; done.
  - intros i Hi. rewrite GetLocationFromStatus_spec. do 2 f_equal.
    change (eeprom_header_begin (located t0)) with s.
    change (eeprom_parameter_begin (located t0)) with (wrap_int (s + n + 4)).
    unfold location. rewrite (wrap_int_small (s + n + 4)) by lia.
    assert (Hk : 0 <= i * sizeof_XItem <= n * sizeof_XItem - sizeof_XItem)
      by nia.
    replace (s + 2 + i - s - 2) with i by lia.
    rewrite wrap_int_small by lia. lia.
  - intros a Ha. rewrite Hrd.
    ztests; done.
  - rewrite wrap_int_small by lia. lia.
Qed.

(** C4 (amended). A successful [InitBuffer(capacity)], capacity at least 1,
    chains capacity + 1 nodes (the last one is never filled by [Insert]),
    and no later call of any public operation changes that number. *)
Theorem chain_length_fixed (k : Z) heap t t1 os rs t2 :
  1 <= k <= 32767 →
  InitBuffer k heap t = Ok true t1 →
  run E2END os t1 = Ok rs t2 →
  Z.of_nat (length (chain t1)) = k + 1
  ∧ Z.of_nat (length (chain t2)) = k + 1.
Proof.
  intros Hk Hinit Hrun.
  pose proof (InitBuffer_length k heap t t1 Hk Hinit) as Hlen.
  split; [done|].
  assert (Hc : chain_len (Z.to_nat k) t1) by (unfold chain_len; lia).
  pose proof (preserves_len_run _ os t1 rs t2 Hc Hrun) as Hc2.
  unfold chain_len in Hc2. lia.
Qed.

(** C5 (amended). When every node but the last is enabled, [Insert]
    returns false and changes neither a node, nor the counter, nor the
    store; it leaves the cursor on the last node of the chain. *)
Theorem Insert_full_fails t x nodes last :
  chain t = nodes ++ [last] →
  Forall (fun n => enabled n = true) nodes →
  Insert x t = Ok false (set_current_record (Some (length nodes)) t).
Proof.
  intros Hl Hall.
  rewrite Insert_spec by (rewrite Hl; by destruct nodes).
  cbv zeta. rewrite Hl, scan_to_full by done.
  rewrite length_app. cbn [length].
  case_decide; [lia|done].
Qed.

(** C7. [Top()] followed by [Next()] until it fails visits exactly the
    enabled nodes, in chain order; [Top] fails at once when no node is
    enabled (or there is no chain), and [Next] moves to the next enabled
    node or, when none is left, clears the cursor and fails. *)
Theorem Top_Next_enumerate t :
  (∃ t', enumerate t = Ok (enabled_indices (chain t) 0) t'
         ∧ chain t' = chain t)
  ∧ (enabled_indices (chain t) 0 = [] → ∃ t', Top t = Ok false t')
  ∧ (chain t ≠ [] →
     Top t = match enabled_indices (chain t) 0 with
             | j :: _ => Ok true (set_current_record (Some j) t)
             | [] => Ok false (set_current_record None t)
             end)
  ∧ (∀ i, current_record t = Some i → (i < length (chain t))%nat →
     Next t = match enabled_indices (drop (S i) (chain t)) (S i) with
              | j :: _ => Ok true (set_current_record (Some j) t)
              | [] => Ok false (set_current_record None t)
              end).
Proof.
  assert (HTop : chain t ≠ [] →
     Top t = match enabled_indices (chain t) 0 with
             | j :: _ => Ok true (set_current_record (Some j) t)
             | [] => Ok false (set_current_record None t)
             end).
  { intros Hne. rewrite (Top_spec t Hne). cbv zeta.
    rewrite find_enabled_head. by destruct (enabled_indices _ _). }
  repeat split.
  - unfold enumerate, bind.
    destruct (decide (chain t = [])) as [He|Hne].
    { rewrite (Top_empty t He), He. by exists t. }
    rewrite (Top_spec t Hne). cbv zeta.
    rewrite (find_enabled_indices (chain t) 0).
    destruct (find_enabled (chain t) 0) as [j|] eqn:Ej; cbn [non_null].
    + pose proof (find_enabled_ge _ _ _ Ej) as Hj.
      unfold gets. rewrite (enumerate_loop_spec _ _ j); cbn; try done; try lia.
      replace (j - 0)%nat with j by lia. by eexists.
    + unfold ret. by eexists.
  - intros Hnone. destruct (decide (chain t = [])) as [He|Hne].
    + rewrite (Top_empty t He). by eexists.
    + rewrite (HTop Hne), Hnone. by eexists.
  - exact HTop.
  - intros i Hc Hi. rewrite (Next_spec t i Hc Hi). cbv zeta.
    rewrite find_enabled_head.
    by destruct (enabled_indices (drop (S i) (chain t)) (S i)).
Qed.

(** C8. A second [InitStorage] with the arguments of a first successful
    one succeeds again, reformats nothing (it leaves the whole object, the
    store included, as the first call left it), and [CheckStorage] succeeds
    on that state. *)
Theorem InitStorage_twice t (s n : Z) t1 :
  InitStorage E2END s n t = Ok true t1 →
  InitStorage E2END s n t1 = Ok true t1
  ∧ (∀ a, eeprom (state_after (InitStorage E2END s n) t1) a = eeprom t1 a)
  ∧ CheckStorage t1 = Ok true t1.
Proof.
  intros Hfirst. destruct (InitStorage_again t s n t1 Hfirst) as [H2 Hck].
  repeat split; [done| |done].
  intros a. unfold state_after. by rewrite H2.
Qed.

(** C9 (what the code does). [Select] dereferences the cursor without a
    test: with the cursor null, as [Clean] and the constructor leave it,
    the call faults; so does [Insert] before [InitBuffer]. *)
Theorem null_cursor_faults :
  (∀ t, bind Clean (fun _ => Select) t = Fault)
  ∧ (∀ (mem : Z → Z), Select (XTable_new (X:=X) mem) = Fault)
  ∧ (∀ (mem : Z → Z) x, Insert x (XTable_new mem) = Fault).
Proof.
  split; [|split].
  - intros t. unfold bind. rewrite Clean_spec. by apply Select_null.
  - intros mem. by apply Select_null.
  - intros mem x. by apply Insert_null.
Qed.

(** C10. With the cursor on a node, [Delete] returns true, clears the
    node's flag and decrements the counter, whether or not the node was
    enabled; two calls in a row decrement twice, and from a counter of 0
    the decrement wraps to 65535. *)
Theorem Delete_ignores_enabled t i (n : XItem X) :
  current_record t = Some i → chain t !! i = Some n →
  Delete t
  = Ok true (set_counter (wrap_uint (counter t - 1))
               (set_chain (<[i := disable n]> (chain t)) t))
  ∧ (∃ t2, bind Delete (fun _ => Delete) t = Ok true t2
           ∧ counter t2 = wrap_uint (counter t - 2)
           ∧ chain t2 = <[i := disable n]> (chain t))
  ∧ (counter t = 0 →
     bind Delete (fun _ => Counter) t
     = Ok 65535 (set_counter 65535
                   (set_chain (<[i := disable n]> (chain t)) t))).
Proof.
  intros Hc Hn.
  pose proof (Delete_spec t i n Hc Hn) as Hd.
  assert (Hi : (i < length (chain t))%nat) by by eapply lookup_lt_Some.
  repeat split; [done| |].
  - unfold bind. rewrite Hd.
    erewrite Delete_spec;
      [| exact Hc | cbn; apply list_lookup_insert_eq; exact Hi ].
    eexists. split; [reflexivity|]. cbn. split.
    + rewrite <- (Z.add_opp_r (wrap_uint _)), wrap_uint_add_l.
      f_equal. lia.
    + by rewrite list_insert_insert_eq.
  - intros H0. unfold bind. rewrite Hd, H0. reflexivity.
Qed.

End Properties.

(** * The properties on the small device *)

#[export] Instance byte_payload_laws : PayloadLaws Byte.byte.
Proof.
  split.
  - done.
  - intros x. apply Forall_singleton.
    pose proof (Byte.to_N_bounded x). cbn. lia.
  - intros x. cbn. rewrite N2Z.id, Byte.of_to_N. done.
  - reflexivity.
  - reflexivity.
Qed.

Lemma returned_Ok {X A} (m : M X A) (t : XTable X) (a : A) :
  returned (m t) = Some a → m t = Ok a (state_after m t).
Proof.
  unfold returned, state_after. destruct (m t); [|done..]. by intros [= ->].
Qed.

(** C1. The round trip loses an item. After [InitBuffer(2); Clean();
    InitStorage(0, 3); Insert(a); Insert(b); Delete(); Delete();] the live
    set is [a] and the counter is 0: the second [Delete] decremented it on
    the node that was already disabled. [SaveStorage()] succeeds; it writes
    the record of [a] and stores the counter, 0, as the count of available
    items. [Clean()] followed by [LoadStorage()] then succeeds and leaves
    the table empty: the enabled items are not the live set. *)
Theorem round_trip_loses_item :
  let t := demo_a_deleted_twice in
  let t1 := state_after SaveStorage t in
  let t3 := state_after (bind Clean (fun _ => LoadStorage)) t1 in
  live t = [{| item := Byte.x61; enabled := true |}]
  ∧ counter t = 0
  ∧ returned (SaveStorage t) = Some true
  ∧ eeprom_Read (eeprom t1) (top_parameter_ptr t1)
    = {| item := Byte.x61; enabled := true |}
  ∧ eeprom_read (eeprom t1) (top_parameter_ptr t1 - 1) = 0
  ∧ returned (bind Clean (fun _ => LoadStorage) t1) = Some true
  ∧ live t3 = []
  ∧ counter t3 = 0.
Proof. vm_compute. repeat split; reflexivity. Qed.

(** Deciding a closed fact of the small device by evaluation. *)
Ltac by_eval :=
  vm_compute; repeat split; first [reflexivity | discriminate].

(** The stamps of a freshly formatted region end at its first position. *)
Ltac fresh_stamps :=
  split; [by_eval|]; split; [by_eval|]; split; [intros j Hj; lia|];
  split; [by_eval|]; split; intros _; by_eval.




Lemma PutTopLocation_GetTopLocation_witness :
  ∃ t1 t2,
    GetTopLocation demo_ab = Ok tt t1
    ∧ top_status_ptr t1 = eeprom_header_begin demo_ab + 2 + 0
    ∧ bind PutTopLocation (fun _ => GetTopLocation) t1 = Ok tt t2
    ∧ top_status_ptr t2
      = eeprom_header_begin demo_ab + 2 + (0 + 1) mod eeprom_max_items demo_ab
    ∧ eeprom_read (eeprom t2) (top_status_ptr t2)
      = eeprom_read (eeprom demo_ab) (eeprom_header_begin demo_ab + 2 + 0) + 1
    ∧ top_parameter_ptr t2
      = location (eeprom_header_begin demo_ab)
          (eeprom_parameter_begin demo_ab) (top_status_ptr t2).
Proof.
  apply (PutTopLocation_GetTopLocation demo_ab 0).
  - by_eval.
  - fresh_stamps.
Defined.

Lemma Insert_first_free_witness :
  Insert Byte.x62 demo_a
  = Ok true
      (set_counter (wrap_uint (counter demo_a + 1))
         (set_chain
            ([ {| item := Byte.x61; enabled := true |} ]
             ++ {| item := Byte.x62; enabled := true |}
                :: [ {| item := Byte.x00; enabled := false |} ])
            (set_current_record
               (Some (length [ {| item := Byte.x61; enabled := true |} ]))
               demo_a))).
Proof.
  apply (Insert_first_free demo_a Byte.x62
           [ {| item := Byte.x61; enabled := true |} ]
           [ {| item := Byte.x00; enabled := false |} ]
           {| item := Byte.x00; enabled := false |}).
  - by_eval.
  - repeat constructor.
  - reflexivity.
  - discriminate.
Defined.

Lemma Insert_then_Select_witness :
  Select (state_after (Insert Byte.x62) demo_a)
  = Ok (Some Byte.x62) (state_after (Insert Byte.x62) demo_a).
Proof.
  apply (Insert_then_Select demo_a Byte.x62).
  apply (returned_Ok (Insert Byte.x62) demo_a true).
  by_eval.
Defined.

Lemma Insert_succeeds_iff_witness :
  returned (Insert Byte.x63 demo_ab) = Some true
  ↔ Exists (fun n : XItem Byte.byte => enabled n = false)
      [ {| item := Byte.x61; enabled := true |};
        {| item := Byte.x62; enabled := true |} ].
Proof.
  apply (Insert_succeeds_iff demo_ab Byte.x63
           [ {| item := Byte.x61; enabled := true |};
             {| item := Byte.x62; enabled := true |} ]
           {| item := Byte.x00; enabled := false |}).
  by_eval.
Defined.

Lemma Update_then_Select_witness :
  ∃ t', Update Byte.x63 demo_ab = Ok true t'
    ∧ chain t'
      = <[1%nat := {| item := Byte.x63; enabled := true |}]> (chain demo_ab)
    ∧ counter t' = counter demo_ab
    ∧ Select t' = Ok (Some Byte.x63) t'.
Proof.
  destruct (Update_then_Select demo_ab Byte.x63) as [_ Hu].
  apply (Hu 1%nat {| item := Byte.x62; enabled := true |}); reflexivity.
Defined.


Lemma InitBuffer_by_heap_witness :
  InitBuffer 2 demo_heap demo_new
  = Ok true
      (set_xitem (head (drop 3 demo_heap))
         (set_buffer_max_items 2
            (set_current_record (Some 2%nat)
               (set_chain (take 3 demo_heap) demo_new)))).
Proof.
  destruct (InitBuffer_by_heap 2 demo_heap demo_new) as [_ Hnew]; [lia|].
  destruct Hnew as [Hok _]; [reflexivity|].
  apply Hok. vm_compute. lia.
Defined.

Lemma GetTopLocation_stops_at_255_witness :
  eeprom_read (eeprom demo_256_saves) 3 = 0
  ∧ ∃ t', GetTopLocation demo_256_saves = Ok tt t'
          ∧ top_status_ptr t' = wrap_int (eeprom_header_begin demo_256_saves + 2)
          ∧ GetLocationFromStatus (top_status_ptr t') t'
            = Ok (top_parameter_ptr t') t'.
Proof.
  split; [vm_compute; reflexivity|].
  apply (GetTopLocation_stops_at_255 demo_256_saves).
  vm_compute; reflexivity.
Defined.

(** C3, counterexample. On the freshly formatted region of capacity 3 at
    address 0, the data slot of the first status position is at offset 7,
    not at offset 3 + 3. *)
Lemma data_begins_after_spare_byte :
  returned (InitStorage demo_E2END 0 3 demo_buffer) = Some true
  ∧ returned (GetLocationFromStatus (0 + 2) demo_table) ≠ Some (0 + 3 + 3).
Proof. vm_compute. split; [reflexivity|discriminate]. Qed.

Lemma InitStorage_layout_witness :
  ∃ t', InitStorage demo_E2END 0 3 demo_buffer = Ok true t'
    ∧ eeprom_read (eeprom t') 0 = BMK
    ∧ eeprom_read (eeprom t') (0 + 1) = 3
    ∧ (∀ k : Z, 0 <= k < 3 → eeprom_read (eeprom t') (0 + 2 + k) = 0)
    ∧ eeprom_read (eeprom t') (0 + 3 + 2) = EMK
    ∧ eeprom_read (eeprom t') (0 + 3 + 3) = 0
    ∧ (∀ k : Z, 0 <= k < 3 →
         GetLocationFromStatus (0 + 2 + k) t'
         = Ok (0 + 3 + 4 + k * sizeof_XItem) t')
    ∧ (∀ a : Z, 0 + 3 + 4 <= a < 0 + 3 + 4 + 3 * sizeof_XItem →
         eeprom_read (eeprom t') a = 0)
    ∧ top_status_ptr t' = 0 + 2
    ∧ top_parameter_ptr t' = 0 + 3 + 4.
Proof.
  apply (InitStorage_layout demo_E2END demo_buffer 0 3).
  - lia.
  - lia.
  - vm_compute. discriminate.
  - vm_compute. reflexivity.
  - vm_compute. reflexivity.
Defined.

(** C4, counterexample. [InitBuffer(2)] succeeds and chains three nodes. *)
Lemma InitBuffer_allocates_one_more :
  returned (InitBuffer 2 demo_heap demo_new) = Some true
  ∧ length (chain (state_after (InitBuffer 2 demo_heap) demo_new)) ≠ 2%nat.
Proof. vm_compute. split; [reflexivity|discriminate]. Qed.

Lemma chain_length_fixed_witness :
  Z.of_nat (length (chain (state_after (InitBuffer 2 demo_heap) demo_new)))
  = 2 + 1
  ∧ Z.of_nat
      (length
         (chain
            (state_after
               (run demo_E2END
                  [OpClean; OpInitStorage 0 3; OpInsert Byte.x61;
                   OpInsert Byte.x62; OpInsert Byte.x63; OpTop; OpDelete;
                   OpSaveStorage; OpClean; OpLoadStorage; OpNext])
               (state_after (InitBuffer 2 demo_heap) demo_new))))
    = 2 + 1.
Proof.
  eapply (chain_length_fixed demo_E2END 2 demo_heap demo_new).
  - lia.
  - apply returned_Ok. vm_compute. reflexivity.
  - apply returned_Ok. vm_compute. reflexivity.
Defined.

(** C5, counterexample. On the full table the failed [Insert] moves the
    cursor from the node it was on to the last node. *)
Lemma failed_Insert_moves_cursor :
  returned (Insert Byte.x63 demo_ab) = Some false
  ∧ current_record demo_ab = Some 1%nat
  ∧ current_record (state_after (Insert Byte.x63) demo_ab) ≠ current_record demo_ab.
Proof. vm_compute. repeat split; discriminate. Qed.

Lemma Insert_full_fails_witness :
  Insert Byte.x63 demo_ab = Ok false (set_current_record (Some 2%nat) demo_ab).
Proof.
  apply (Insert_full_fails demo_ab Byte.x63
           [ {| item := Byte.x61; enabled := true |};
             {| item := Byte.x62; enabled := true |} ]
           {| item := Byte.x00; enabled := false |}).
  - vm_compute. reflexivity.
  - repeat constructor.
Defined.

(** C6. [Counter()] after more successful [Delete]s than [Insert]s. On
    the table of [InitBuffer(2)], after [Clean(); Insert(a); Delete();
    Delete();], all of them successful, no node is enabled and [Counter()]
    returns 65535: neither the number of available entries, which is 0, nor
    the number of successful [Insert]s minus the number of successful
    [Delete]s, which is -1. *)
Theorem Counter_wraps_below_zero :
  let os := [OpInsert Byte.x61; OpDelete; OpDelete; OpCounter] in
  let rs := [RBool true; RBool true; RBool true; RCount 65535] in
  returned (run demo_E2END (OpClean :: os) demo_table) = Some (RVoid :: rs)
  ∧ live (state_after (run demo_E2END (OpClean :: os)) demo_table) = []
  ∧ inserts_ok os rs - deletes_ok os rs = -1.
Proof. vm_compute. repeat split; reflexivity. Qed.

Lemma Counter_counts_witness :
  let os := [OpInsert Byte.x61; OpDelete; OpDelete; OpInsert Byte.x62] in
  let rs := [RBool true; RBool true; RBool true; RBool true] in
  let t' := state_after (run demo_E2END (OpClean :: os)) demo_table in
  Counter t' = Ok (wrap_uint (inserts_ok os rs - deletes_ok os rs)) t'
  ∧ (0 <= inserts_ok os rs - deletes_ok os rs < 65536 →
     Counter t' = Ok (inserts_ok os rs - deletes_ok os rs) t').
Proof.
  cbv zeta. eapply (Counter_counts demo_E2END demo_table).
  - reflexivity.
  - apply returned_Ok. vm_compute. reflexivity.
Defined.

Lemma Top_Next_enumerate_witness :
  (∃ t', enumerate demo_ab = Ok [0%nat; 1%nat] t' ∧ chain t' = chain demo_ab)
  ∧ (∃ t', Top demo_table = Ok false t')
  ∧ Top demo_ab = Ok true (set_current_record (Some 0%nat) demo_ab)
  ∧ Next demo_ab = Ok false (set_current_record None demo_ab).
Proof.
  destruct (Top_Next_enumerate demo_ab) as (Henum & _ & HTop & HNext).
  destruct (Top_Next_enumerate demo_table) as (_ & Hnone & _ & _).
  split; [exact Henum|]. split; [apply Hnone; reflexivity|].
  split.
  - apply HTop. vm_compute. discriminate.
  - apply (HNext 1%nat); [reflexivity|vm_compute; lia].
Defined.

Lemma InitStorage_twice_witness :
  InitStorage demo_E2END 0 3 demo_table = Ok true demo_table
  ∧ (∀ a, eeprom (state_after (InitStorage demo_E2END 0 3) demo_table) a
          = eeprom demo_table a)
  ∧ CheckStorage demo_table = Ok true demo_table.
Proof.
  apply (InitStorage_twice demo_E2END demo_buffer 0 3 demo_table).
  apply (returned_Ok (InitStorage demo_E2END 0 3) demo_buffer true).
  vm_compute. reflexivity.
Defined.

Lemma Delete_ignores_enabled_witness :
  let t := state_after Delete demo_a in
  let n := {| item := Byte.x61; enabled := false |} in
  Delete t
  = Ok true (set_counter (wrap_uint (counter t - 1))
               (set_chain (<[0%nat := disable n]> (chain t)) t))
  ∧ (∃ t2, bind Delete (fun _ => Delete) t = Ok true t2
           ∧ counter t2 = wrap_uint (counter t - 2)
           ∧ chain t2 = <[0%nat := disable n]> (chain t))
  ∧ (counter t = 0 →
     bind Delete (fun _ => Counter) t
     = Ok 65535 (set_counter 65535
                   (set_chain (<[0%nat := disable n]> (chain t)) t))).
Proof.
  cbv zeta.
  apply (Delete_ignores_enabled (state_after Delete demo_a) 0%nat
           {| item := Byte.x61; enabled := false |}).
  - vm_compute. reflexivity.
  - vm_compute. reflexivity.
Defined.
